(** * search.c: partition-and-collect substring search

    A shallow embedding of [search.c], an MPI program that looks for a
    literal pattern in a file, and the properties of its partitioner, its
    matcher, its processes and its result aggregation.

    Conventions of the embedding.
    - C integers are [Z] with the conversions written out: [to_int] is the
      conversion to a 32-bit [int] (two's complement wrap-around),
      [to_size_t] the conversion to a 64-bit [size_t]; [intmax_t] has 64
      bits.
    - [int] arrays ([distribute], [displs], [found], [recv_counts], ...) are
      finite maps [gmap Z Z] from index to cell; a freshly declared array is
      the empty map and [a !!! i] reads cell [i].  A store [a[i] = v] is
      [<[i := v]> a] whatever [i] is: the number of elements an array was
      declared with is kept apart ([found_capacity]) and compared with the
      indices written where a property is about it.
    - [char] buffers are [list byte]; [argv[1]] is the list of its bytes
      before the terminating zero, so that [strlen] is [length].
    - a counted [for] loop is a left fold over the index range; the loop
      counters and the indices computed from them stay below the loop
      bounds and are not wrapped.
    - [main] is a process: the sequence of its collective calls, each with
      its arguments and with what the rank does next with the buffer the
      call has filled.  A run is a group of such processes, which go
      through a collective call together ([run_group], [mpirun]).
    - an uninitialised variable that is read holds an arbitrary value
      ([garbage]).
    - [main_body] is [main] for allocations that succeed and an array
      [found] that has room for every store: the two tests of [malloc]
      after the second broadcast are not part of it, and the number of
      elements [found] is declared with is kept apart.  The source leaves
      this range when a rank is given a negative number of bytes ([malloc]
      then fails) or a block more than one byte shorter than the pattern
      ([found] is then declared with a negative size); the theorems on
      whole runs either look at one input or state the inputs they are
      about.
    - the system calls of the root are given by what they return
      ([system]); [main_argv] is [main] from the check of the command line
      on, [main] what is left of it once the file has been read. *)

From Stdlib Require Import ZArith Lia.
From Stdlib.Strings Require Import Byte String.
From stdpp Require Import gmap list list_numbers sorting.

Open Scope Z_scope.

(** ** Machine integers *)

Definition INT_MAX : Z := 2147483647.

Definition INTMAX_MAX : Z := 9223372036854775807.

(** Conversion to [int]. *)
Definition to_int (z : Z) : Z := (z + 2 ^ 31) mod 2 ^ 32 - 2 ^ 31.

(** Conversion to [size_t]. *)
Definition to_size_t (z : Z) : Z := z mod 2 ^ 64.

(** ** Loops *)

(** [for (i = lo; i < hi; i++) s = body i s]. *)
Definition for_range {St : Type} (lo hi : Z) (body : Z → St → St) (s : St) : St :=
  foldl (λ s i, body i s) s (seqZ lo (hi - lo)).

(** ** The partitioner *)

(** [displacment(displs, distribute, pattern_size, p)]: the array [displs]
    after the call.  [displs[i - 1] + distribute[i - 1]] is an [int] sum;
    subtracting the [size_t] value [pattern_size - 1] happens at [size_t]
    and the result is stored back into an [int]. *)
Definition displacment (displs distribute : gmap Z Z) (pattern_size p : Z)
  : gmap Z Z :=
  let displs := <[0 := 0]> displs in
  for_range 1 p (λ i displs,
    <[i := to_int (to_size_t
             (to_size_t (to_int (displs !!! (i - 1) + distribute !!! (i - 1)))
              - to_size_t (pattern_size - 1)))]> displs) displs.

(** One iteration of the loop of [distribute_file]; the state is the array
    and the remainder counter [r]. *)
Definition distribute_body (n pattern_size p : Z) (i : Z)
    (st : gmap Z Z * Z) : gmap Z Z * Z :=
  let '(distribute, r) := st in
  let distribute := <[i := n]> distribute in
  let '(distribute, r) :=
    if 0 <? r
    then (<[i := to_int (distribute !!! i + 1)]> distribute, to_int (r - 1))
    else (distribute, r) in
  let distribute :=
    if i <? p - 1
    then <[i := to_int (to_size_t (to_size_t (distribute !!! i)
                                   + to_size_t (pattern_size - 1)))]> distribute
    else distribute in
  (distribute, r).

(** [distribute_file(file_size, pattern_size, p, distribute)]: the array
    [distribute] after the call.  [/] and [%] of C truncate towards zero.
    [p] is the number of processes, which is not zero: the division by
    zero of the source has no counterpart here. *)
Definition distribute_file (file_size pattern_size p : Z)
    (distribute : gmap Z Z) : gmap Z Z :=
  let n := to_int (file_size `quot` p) in
  let r := to_int (file_size `rem` p) in
  fst (for_range 0 p (distribute_body n pattern_size p) (distribute, r)).

(** The first [n] cells of an array, as a list. *)
Definition cells (a : gmap Z Z) (n : Z) : list Z :=
  (λ i, a !!! i) <$> seqZ 0 n.

(** ** The matcher *)

#[global] Instance byte_inhabited : Inhabited byte := populate x00.

(** What [find_string] changes: the cells of [found] and the counter behind
    [count].  [compared] is a ghost counter of the executions of the byte
    comparison [file[i + j] != pattern[j]]; the program has no such variable,
    it only serves to state how much work the scan does. *)
Record matcher : Type := Matcher {
  found : gmap Z Z;
  count : Z;
  compared : nat
}.

(** The inner loop [for (j = 0; j < pattern_size; j++)] entered at [j], with
    its [break]; the result is the value of [j] after the loop and the
    number of comparisons made. *)
Fixpoint compare_from (fuel : nat) (file pattern : list byte)
    (i j pattern_size : Z) (ncmp : nat) : Z * nat :=
  match fuel with
  | O => (j, ncmp)
  | S fuel =>
      if j <? pattern_size then
        if negb (Byte.eqb (file !!! Z.to_nat (i + j)) (pattern !!! Z.to_nat j))
        then (j, S ncmp)
        else compare_from fuel file pattern i (j + 1) pattern_size (S ncmp)
      else (j, ncmp)
  end.

(** One iteration of the outer loop of [find_string]. *)
Definition find_body (file pattern : list byte) (pattern_size displacment : Z)
    (i : Z) (st : matcher) : matcher :=
  let '(j, ncmp) :=
    compare_from (Z.to_nat pattern_size) file pattern i 0 pattern_size
                 (compared st) in
  if j =? pattern_size
  then {| found := <[count st := to_int (i + displacment)]> (found st);
          count := to_int (count st + 1);
          compared := ncmp |}
  else {| found := found st; count := count st; compared := ncmp |}.

(** [find_string(file, pattern, found, file_size, pattern_size, count,
    displacment, id)].  The loop condition [i <= file_size - pattern_size]
    is [i < file_size - pattern_size + 1]. *)
Definition find_string (file pattern : list byte) (file_size pattern_size : Z)
    (displacment id : Z) (st : matcher) : matcher :=
  for_range 0 (to_int (file_size - pattern_size) + 1)
            (find_body file pattern pattern_size displacment) st.

(** ** Printing *)

(** [print_index(arr, recv_counts, p)]: the numbers printed, one per line. *)
Definition print_index (arr recv_counts : gmap Z Z) (p : Z) : list Z :=
  snd (for_range 0 p (λ i '(offset, out),
         (to_int (offset + recv_counts !!! i),
          for_range 0 (recv_counts !!! i)
                    (λ j out, out ++ [arr !!! to_int (offset + j)]) out))
       (0, [])).

(** ** The processes *)

(** The result of a run: [fatal_error] aborts the process group after
    printing its message, a normal run prints the offsets gathered by the
    root, and a run in which the processes do not meet in a collective call
    never ends. *)
Inductive outcome : Type :=
| Aborted (msg : string)
| Finished (printed : list Z)
| Deadlock.

Definition SizeError : string := "pattern is larger than file".

Definition ROOT : Z := 0.

(** A process, as the collective calls it makes: each call comes with the
    arguments the process passes, and goes on with the content of the
    receive buffer once the call has returned. *)
Inductive proc (A : Type) : Type :=
| Return (a : A)
| MPI_Abort (msg : string)
| MPI_Bcast_ints (buffer : gmap Z Z) (count : Z) (k : gmap Z Z → proc A)
| MPI_Bcast_size (variable : Z) (k : Z → proc A)
| MPI_Bcast_chars (buffer : list byte) (count : Z) (k : list byte → proc A)
| MPI_Scatterv (sendbuf : list byte) (sendcounts displs : gmap Z Z)
    (recvcount : Z) (k : list byte → proc A)
| MPI_Barrier (k : proc A)
| MPI_Gather (sendval : Z) (recvbuf : gmap Z Z) (k : gmap Z Z → proc A)
| MPI_Gatherv (sendbuf : gmap Z Z) (sendcount : Z)
    (recvbuf recvcounts displs : gmap Z Z) (k : gmap Z Z → proc A).

Arguments Return {A} a.
Arguments MPI_Abort {A} msg.
Arguments MPI_Bcast_ints {A} buffer count k.
Arguments MPI_Bcast_size {A} variable k.
Arguments MPI_Bcast_chars {A} buffer count k.
Arguments MPI_Scatterv {A} sendbuf sendcounts displs recvcount k.
Arguments MPI_Barrier {A} k.
Arguments MPI_Gather {A} sendval recvbuf k.
Arguments MPI_Gatherv {A} sendbuf sendcount recvbuf recvcounts displs k.

(** The variables of [main] when a rank leaves it, and what it has
    printed.  [distribute], [displs], [pattern_size] and [pattern] are not
    assigned after the broadcasts: a rank leaves with the values it had
    when it entered the scatter. *)
Record locals : Type := Locals {
  v_distribute : gmap Z Z;
  v_displs : gmap Z Z;
  v_pattern_size : Z;
  v_pattern : list byte;
  v_search : matcher;
  v_printed : list Z
}.

(** [strncpy(dest, src, n)]: the [n] bytes of [dest] afterwards, for a
    source of [length src] bytes followed by a zero. *)
Definition strncpy (src : list byte) (n : Z) : list byte :=
  take (Z.to_nat n) src ++ replicate (Z.to_nat n - length src) x00.

(** The root's loop [displs_for_gather[i] = displs_for_gather[i - 1] +
    recv_counts[i - 1]]. *)
Definition gather_displs (recv_counts : gmap Z Z) (p : Z) : gmap Z Z :=
  for_range 1 p (λ i d,
    <[i := to_int (d !!! (i - 1) + recv_counts !!! (i - 1))]> d)
    (<[0 := 0]> ∅).

(** The root's loop [total_indexes += recv_counts[i]]: the number of
    elements [all_indexes] is allocated with. *)
Definition total_indexes (recv_counts : gmap Z Z) (p : Z) : Z :=
  for_range 0 p (λ i total_indexes, to_int (total_indexes + recv_counts !!! i))
            0.

(** Number of elements of the array [int found[distribute[id] -
    pattern_size]]; the size expression is evaluated at [size_t]. *)
Definition found_capacity (distribute : gmap Z Z) (pattern_size id : Z) : Z :=
  to_size_t (to_size_t (distribute !!! id) - pattern_size).

(** The block [if (ROOT == id) { ... }] at the start of [main]: the values
    of [file_buffer], [pattern_size], [distribute] and [displs] after it,
    or the message of [fatal_error].  The root reads the file ([file_size]
    is what [lseek] returns) and compares [file_size - 1], an [intmax_t],
    with [pattern_size], a [size_t]: the comparison is made at [size_t].
    On the other ranks [pattern_size] is not initialised and holds
    [garbage], the arrays are not written and no file is read. *)
Definition root_block (garbage : Z) (pattern file : list byte) (p id : Z)
  : string + (list byte * Z * gmap Z Z * gmap Z Z) :=
  if id =? ROOT then
    let file_size := Z.of_nat (length file) in
    let pattern_size := Z.of_nat (length pattern) in
    if to_size_t (file_size - 1) <? pattern_size
    then inl SizeError
    else
      let distribute := distribute_file (file_size - 1) pattern_size p ∅ in
      let displs := displacment ∅ distribute pattern_size p in
      inr (file, pattern_size, distribute, displs)
  else inr ([], garbage, ∅, ∅).

(** The rest of [main], from the first broadcast on, for allocations that
    succeed: the tests [if (!local_buffer)] and [if (!pattern)] and their
    calls of [fatal_error] are left out, and [found] takes every store
    ([found_capacity] is the number of elements it is declared with). *)
Definition main_body (pattern file_buffer : list byte) (pattern_size : Z)
    (distribute displs : gmap Z Z) (p id : Z) : proc locals :=
  MPI_Bcast_ints distribute p (λ distribute,
  MPI_Bcast_ints displs p (λ displs,
  let local_count := distribute !!! id in
  let pattern := strncpy pattern pattern_size in
  MPI_Bcast_size pattern_size (λ pattern_size,
  MPI_Bcast_chars pattern (to_int pattern_size) (λ pattern,
  MPI_Scatterv file_buffer distribute displs local_count (λ local_buffer,
  let displacement := displs !!! id in
  let search :=
    find_string local_buffer pattern local_count (to_int pattern_size)
                displacement id {| found := ∅; count := 0; compared := O |} in
  MPI_Barrier (
  MPI_Gather (count search) ∅ (λ recv_counts,
  let displs_for_gather :=
    if id =? ROOT then gather_displs recv_counts p else ∅ in
  MPI_Gatherv (found search) (count search) ∅ recv_counts displs_for_gather
    (λ all_indexes,
  Return {| v_distribute := distribute;
            v_displs := displs;
            v_pattern_size := pattern_size;
            v_pattern := pattern;
            v_search := search;
            v_printed :=
              if id =? ROOT
              then print_index all_indexes recv_counts p else [] |})))))))).

(** [main] as run by the process of rank [id] in a group of [p] processes,
    for [argv[1] = pattern] and a file with content [file].  [garbage] is
    what an uninitialised [pattern_size] holds. *)
Definition main (garbage : Z) (pattern file : list byte) (p id : Z)
  : proc locals :=
  match root_block garbage pattern file p id with
  | inl msg => MPI_Abort msg
  | inr (file_buffer, pattern_size, distribute, displs) =>
      main_body pattern file_buffer pattern_size distribute displs p id
  end.

(** ** The process group *)

(** The collective calls. *)
Inductive call : Type :=
| Bcast_ints | Bcast_size | Bcast_chars | Scatterv | Barrier | Gather | Gatherv.

#[global] Instance call_eq_dec : EqDecision call.
Proof. solve_decision. Defined.

Definition next_call {A : Type} (r : proc A) : option call :=
  match r with
  | Return _ | MPI_Abort _ => None
  | MPI_Bcast_ints _ _ _ => Some Bcast_ints
  | MPI_Bcast_size _ _ => Some Bcast_size
  | MPI_Bcast_chars _ _ _ => Some Bcast_chars
  | MPI_Scatterv _ _ _ _ _ => Some Scatterv
  | MPI_Barrier _ => Some Barrier
  | MPI_Gather _ _ _ => Some Gather
  | MPI_Gatherv _ _ _ _ _ _ => Some Gatherv
  end.



(** [MPI_Bcast(buffer, count, MPI_INT, ROOT, ...)] on a rank other than
    the root: the first [count] cells are those of the root. *)
Definition bcast_ints (root_buffer : gmap Z Z) (count : Z)
    (buffer : gmap Z Z) : gmap Z Z :=
  for_range 0 count (λ i buffer, <[i := root_buffer !!! i]> buffer) buffer.

(** [MPI_Bcast(&pattern_size, 1, MPI_INT, ROOT, ...)] on a rank other than
    the root: one [int] is received into a [size_t] variable, of which it
    replaces the 32 low-order bits (the first four bytes on a little-endian
    machine). *)
Definition bcast_int_into_size_t (root_variable variable : Z) : Z :=
  variable - variable mod 2 ^ 32 + root_variable mod 2 ^ 32.

(** [MPI_Bcast(buffer, count, MPI_CHAR, ROOT, ...)] on a rank other than
    the root.  The [count] bytes received are stored whatever the size of
    [buffer]: on a rank whose buffer was allocated with fewer bytes the
    source writes past its end. *)
Definition bcast_chars (root_buffer : list byte) (count : Z)
    (buffer : list byte) : list byte :=
  take (Z.to_nat count) root_buffer ++ drop (Z.to_nat count) buffer.

(** A read of [buffer[k]]; outside the buffer it yields [beyond k], the
    byte that happens to be stored there.  Nothing is assumed about
    [beyond]. *)
Definition read_buffer (beyond : Z → byte) (buffer : list byte) (k : Z)
  : byte :=
  if bool_decide (0 ≤ k < Z.of_nat (length buffer))
  then buffer !!! Z.to_nat k
  else beyond k.

(** [MPI_Scatterv]: the block received by rank [id] is made of the
    [sendcounts[id]] bytes of the root from [sendbuf + displs[id]] on. *)
Definition scatterv_block (beyond : Z → byte) (sendbuf : list byte)
    (sendcounts displs : gmap Z Z) (id : Z) : list byte :=
  (λ k, read_buffer beyond sendbuf (displs !!! id + k))
    <$> seqZ 0 (sendcounts !!! id).

(** [MPI_Gather] of one [int] per rank: cell [i] of the root's receive
    array is the value sent by rank [i]. *)
Definition gather_counts (sent : Z → Z) (p : Z) (recvbuf : gmap Z Z)
  : gmap Z Z :=
  for_range 0 p (λ i recvbuf, <[i := sent i]> recvbuf) recvbuf.

(** [MPI_Gatherv]: the root stores the [recvcounts[i]] values sent by rank
    [i] from cell [displs[i]] of the receive array on. *)
Definition gatherv_blocks (sendbuf : Z → gmap Z Z)
    (recvcounts displs : gmap Z Z) (p : Z) (recvbuf : gmap Z Z) : gmap Z Z :=
  for_range 0 p (λ i recvbuf,
    for_range 0 (recvcounts !!! i)
      (λ k recvbuf, <[displs !!! i + k := sendbuf i !!! k]> recvbuf) recvbuf)
    recvbuf.

Definition sent_value {A : Type} (r : proc A) : Z :=
  match r with MPI_Gather sendval _ _ => sendval | _ => 0 end.

Definition sent_buffer {A : Type} (r : proc A) : gmap Z Z :=
  match r with MPI_Gatherv sendbuf _ _ _ _ _ => sendbuf | _ => ∅ end.

(** The processes of a group that are all in the same collective call
    leave it together: rank [id] goes on with what the call has put in its
    receive buffer.  The buffers of the root are those the root passes. *)
Definition deliver {A : Type} (beyond : Z → byte) (p : Z)
    (ranks : Z → proc A) (id : Z) : proc A :=
  match ranks ROOT, ranks id with
  | MPI_Bcast_ints root_buffer count _, MPI_Bcast_ints buffer _ k =>
      k (if id =? ROOT then buffer
         else bcast_ints root_buffer count buffer)
  | MPI_Bcast_size root_variable _, MPI_Bcast_size variable k =>
      k (if id =? ROOT then variable
         else bcast_int_into_size_t root_variable variable)
  | MPI_Bcast_chars root_buffer count _, MPI_Bcast_chars buffer _ k =>
      k (if id =? ROOT then buffer
         else bcast_chars root_buffer count buffer)
  | MPI_Scatterv sendbuf sendcounts displs _ _, MPI_Scatterv _ _ _ _ k =>
      k (scatterv_block beyond sendbuf sendcounts displs id)
  | MPI_Barrier _, MPI_Barrier k => k
  | MPI_Gather _ _ _, MPI_Gather _ recvbuf k =>
      k (if id =? ROOT
         then gather_counts (λ i, sent_value (ranks i)) p recvbuf
         else recvbuf)
  | MPI_Gatherv _ _ _ recvcounts displs _, MPI_Gatherv _ _ recvbuf _ _ k =>
      k (if id =? ROOT
         then gatherv_blocks (λ i, sent_buffer (ranks i)) recvcounts displs
                             p recvbuf
         else recvbuf)
  | _, r => r
  end.

(** The message of the first rank that has called [MPI_Abort], if any. *)
Definition aborting {A : Type} (p : Z) (ranks : Z → proc A) : option string :=
  foldr (λ id later,
           match ranks id with MPI_Abort msg => Some msg | _ => later end)
        None (seqZ 0 p).

(** What the ranks return, if they all have returned. *)
Definition exits {A : Type} (p : Z) (ranks : Z → proc A) : option (list A) :=
  mapM (λ id, match ranks id with Return a => Some a | _ => None end)
       (seqZ 0 p).

Definition same_call {A : Type} (p : Z) (ranks : Z → proc A) : bool :=
  forallb (λ id,
             bool_decide (next_call (ranks id) = next_call (ranks ROOT)))
          (seqZ 0 p).

Inductive group_result (A : Type) : Type :=
| Completed (returned : list A)
| Killed (msg : string)
| Hung.

Arguments Completed {A} returned.
Arguments Killed {A} msg.
Arguments Hung {A}.

(** A group of [p] processes: [MPI_Abort] by one rank ends the run; the
    run is over when all the ranks have returned; the ranks that are all in
    the same collective call go through it; in any other case the ranks
    wait for one another for ever.  [fuel] bounds the number of collective
    calls. *)
Fixpoint run_group {A : Type} (beyond : Z → byte) (fuel : nat) (p : Z)
    (ranks : Z → proc A) : group_result A :=
  match aborting p ranks with
  | Some msg => Killed msg
  | None =>
      match exits p ranks with
      | Some returned => Completed returned
      | None =>
          match fuel with
          | O => Hung
          | S fuel =>
              if same_call p ranks
              then run_group beyond fuel p (deliver beyond p ranks)
              else Hung
          end
      end
  end.

(** The [p] processes of [mpirun -np p search pattern file], each running
    [main]; [garbage id] is the content of the uninitialised [pattern_size]
    of rank [id]. *)
Definition processes (beyond : Z → byte) (garbage : Z → Z)
    (pattern file : list byte) (p : Z) : group_result locals :=
  run_group beyond 8 p (λ id, main (garbage id) pattern file p id).

(** What the run prints: what its ranks have printed. *)
Definition mpirun (beyond : Z → byte) (garbage : Z → Z)
    (pattern file : list byte) (p : Z) : outcome :=
  match processes beyond garbage pattern file p with
  | Completed returned => Finished (concat (v_printed <$> returned))
  | Killed msg => Aborted msg
  | Hung => Deadlock
  end.

(** ** The run as a flow of data *)

(** The partition tables the root computes from the file size. *)
Definition root_distribute (file_size pattern_size p : Z) : gmap Z Z :=
  distribute_file (file_size - 1) pattern_size p ∅.

Definition root_displs (file_size pattern_size p : Z) : gmap Z Z :=
  displacment ∅ (root_distribute file_size pattern_size p) pattern_size p.

(** The search of rank [id], from the root's tables and pattern: it
    receives its block of the file and scans it. *)
Definition worker (beyond : Z → byte) (file pattern : list byte)
    (distribute displs : gmap Z Z) (pattern_size id : Z) : matcher :=
  let local_count := distribute !!! id in
  let local_buffer := scatterv_block beyond file distribute displs id in
  let displacement := displs !!! id in
  find_string local_buffer pattern local_count (to_int pattern_size)
              displacement id
              {| found := ∅; count := 0; compared := O |}.

(** The output of a run as a function of the root's input: the size
    check, the tables, the searches of the ranks, the two gathers and the
    printing loop.  [mpirun_kernel] proves that [mpirun] computes this. *)
Definition kernel (beyond : Z → byte) (pattern file : list byte) (p : Z)
  : outcome :=
  let file_size := Z.of_nat (length file) in
  let pattern_size := Z.of_nat (length pattern) in
  if to_size_t (file_size - 1) <? pattern_size
  then Aborted SizeError
  else
    let distribute := root_distribute file_size pattern_size p in
    let displs := root_displs file_size pattern_size p in
    let rank := worker beyond file pattern distribute displs pattern_size in
    let recv_counts := gather_counts (λ id, count (rank id)) p ∅ in
    let displs_for_gather := gather_displs recv_counts p in
    let all_indexes :=
      gatherv_blocks (λ id, found (rank id)) recv_counts displs_for_gather
                     p ∅ in
    Finished (print_index all_indexes recv_counts p).

(** The bytes of a string literal. *)
Definition bytes (s : string) : list byte := list_byte_of_string s.

(** ** The command line and the file *)

Inductive whence : Type := SEEK_SET | SEEK_END.

(** The system calls of the root, by what they return: [open] a file
    descriptor or [-1]; [lseek] the resulting offset, which is the size of
    the file for [SEEK_END], or [-1]; [malloc] a buffer or [NULL] ([false]);
    [read] the bytes it has stored in the buffer, their number being its
    return value, or [-1] ([None]).  [sys_errno] is what [errno] holds
    when a call has failed. *)
Record system : Type := System {
  sys_open : list byte → Z;
  sys_lseek : Z → Z → whence → Z;
  sys_malloc : Z → bool;
  sys_read : Z → Z → option (list byte);
  sys_errno : Z
}.

(** [fatal_error(errornum, msg)] prints [msg] on the standard error and
    on the standard output, [usage_error(msg)] prints it on the standard
    output and, after ["Usage: "], on the standard error; both then call
    [MPI_Abort(MPI_COMM_WORLD, 1)].  [errornum] is not used. *)
Definition fatal_error {A : Type} (errornum : Z) (msg : string) : proc A :=
  MPI_Abort msg.

Definition usage_error {A : Type} (msg : string) : proc A :=
  MPI_Abort msg.

(** The block [if (ROOT == id) { ... }] of [main] with its system calls,
    in the order of the source: the values of [file_buffer],
    [pattern_size], [distribute] and [displs] after it, or the arguments
    of the call of [fatal_error] that ends it. *)
Definition root_block_io (sys : system) (garbage : Z)
    (argv1 argv2 : list byte) (p id : Z)
  : (Z * string) + (list byte * Z * gmap Z Z * gmap Z Z) :=
  if id =? ROOT then
    let fd := sys_open sys argv2 in
    if fd =? -1 then inl (sys_errno sys, "Unable to open file"%string)
    else
      let file_size := sys_lseek sys fd 0 SEEK_END in
      if file_size =? -1
      then inl (sys_errno sys, "Error seeking in file"%string)
      else
        let pattern_size := Z.of_nat (length argv1) in
        if to_size_t (file_size - 1) <? pattern_size
        then inl (0, SizeError)
        else if negb (sys_malloc sys (to_size_t file_size))
        then inl (0, "Memory allocation failed for file buffer"%string)
        else if sys_lseek sys fd 0 SEEK_SET =? -1
        then inl (sys_errno sys, "Error seeking in file"%string)
        else
          match sys_read sys fd (to_size_t file_size) with
          | Some file_buffer =>
              if negb (Z.of_nat (length file_buffer) =? file_size)
              then inl (sys_errno sys, "Error reading from file"%string)
              else
                let distribute :=
                  distribute_file (file_size - 1) pattern_size p ∅ in
                let displs := displacment ∅ distribute pattern_size p in
                inr (file_buffer, pattern_size, distribute, displs)
          | None => inl (sys_errno sys, "Error reading from file"%string)
          end
  else inr ([], garbage, ∅, ∅).

(** [main] from its first statement on, as run by the process of rank
    [id]: the check of the number of arguments, made by every rank, the
    block of the root and the rest of [main]. *)
Definition main_argv (sys : system) (garbage : Z) (argv : list (list byte))
    (p id : Z) : proc locals :=
  let argc := Z.of_nat (length argv) in
  if negb (argc =? 3) then usage_error "<pattern> <file>"
  else
    let argv1 := argv !!! 1%nat in
    let argv2 := argv !!! 2%nat in
    match root_block_io sys garbage argv1 argv2 p id with
    | inl (errornum, msg) => fatal_error errornum msg
    | inr (file_buffer, pattern_size, distribute, displs) =>
        main_body argv1 file_buffer pattern_size distribute displs p id
    end.

(** The run of [mpirun -np p] on the command line [argv], the root making
    its system calls in [sys]. *)
Definition mpirun_argv (beyond : Z → byte) (sys : system) (garbage : Z → Z)
    (argv : list (list byte)) (p : Z) : outcome :=
  match run_group beyond 8 p (λ id, main_argv sys (garbage id) argv p id) with
  | Completed returned => Finished (concat (v_printed <$> returned))
  | Killed msg => Aborted msg
  | Hung => Deadlock
  end.

(** A system in which the calls succeed and every name opens a file of
    content [file]. *)
Definition system_with_file (file : list byte) : system :=
  {| sys_open := λ name, 3;
     sys_lseek := λ fd offset whence,
       match whence with
       | SEEK_END => Z.of_nat (length file) + offset
       | SEEK_SET => offset
       end;
     sys_malloc := λ size, true;
     sys_read := λ fd count, Some (take (Z.to_nat count) file);
     sys_errno := 0 |}.

(** * Definitions of the specification *)

(** The table in the words of the specification: every worker gets the base
    share [L / p], the first [L mod p] workers one byte more, and every
    worker but the last [m - 1] trailing bytes of overlap. *)
Definition spec_share (L p i : Z) : Z :=
  L / p + (if i <? L mod p then 1 else 0).

Definition spec_size (L m p i : Z) : Z :=
  spec_share L p i + (if i <? p - 1 then m - 1 else 0).

(** Start of worker [i]'s own territory: the shares before it. *)
Definition spec_offset (L p i : Z) : Z :=
  i * (L / p) + Z.min i (L mod p).

(** The number of positions at which worker [i] looks: the start positions
    of its block at which a whole pattern fits. *)
Definition candidates (L m p i : Z) : Z := spec_size L m p i - m + 1.

(** One more than the last position at which some worker looks. *)
Definition scanned (L m p : Z) : Z :=
  Z.max (L - m + 1) (spec_offset L p (p - 1)).

(** The pattern occurs in the buffer at position [i]: the [pattern_size]
    bytes from [i] on are those of the pattern. *)
Definition occurs_at (file pattern : list byte) (pattern_size i : Z) : bool :=
  forallb (λ j, Byte.eqb (file !!! Z.to_nat (i + j)) (pattern !!! Z.to_nat j))
          (seqZ 0 pattern_size).

(** The positions of the buffer at which the matcher looks, and those at
    which it finds the pattern. *)
Definition hits (file pattern : list byte) (pattern_size n : Z) : list Z :=
  filter (λ i, occurs_at file pattern pattern_size i = true) (seqZ 0 n).

(** The pattern occurs at offset [o] of a memory [mem]. *)
Definition occurs_in (mem : Z → byte) (pattern : list byte) (o : Z) : bool :=
  forallb (λ j, Byte.eqb (mem (o + j)) (pattern !!! Z.to_nat j))
          (seqZ 0 (Z.of_nat (length pattern))).

(** Number of offsets sent by the ranks below [k]. *)
Definition sent_before (cnt : Z → Z) (k : Z) : Z :=
  foldr Z.add 0 (cnt <$> seqZ 0 k).

(** The corpus of a run is what [main] distributes: the content of the file
    without its last byte.  [occurrence C P o] is the specification's
    [C[o : o + |P|] == P]. *)
Definition occurrence (C P : list byte) (o : Z) : Prop :=
  0 ≤ o ∧ take (length P) (drop (Z.to_nat o) C) = P.

(** * Properties *)

(** ** The model at work *)

Example distribute_file_5_2_2 :
  cells (distribute_file 5 2 2 ∅) 2 = [4; 2].
Proof. vm_compute. reflexivity. Qed.

Example displacment_5_2_2 :
  cells (displacment ∅ (distribute_file 5 2 2 ∅) 2 2) 2 = [0; 3].
Proof. vm_compute. reflexivity. Qed.

Example kernel_abc : ∀ beyond,
  kernel beyond (bytes "abc") (bytes "abcabcabc.") 3 = Finished [0; 3; 6].
Proof. intros. vm_compute. reflexivity. Qed.

Example mpirun_abc : ∀ beyond,
  mpirun beyond (λ _, 0) (bytes "abc") (bytes "abcabcabc.") 3
  = Finished [0; 3; 6].
Proof. intros. vm_compute. reflexivity. Qed.

Example mpirun_size_error : ∀ beyond,
  mpirun beyond (λ _, 0) (bytes "abcde") (bytes "abcd.") 2
  = Aborted SizeError.
Proof. intros. vm_compute. reflexivity. Qed.

(** ** Conversions *)

Lemma to_int_id (z : Z) : - 2 ^ 31 ≤ z < 2 ^ 31 → to_int z = z.
Proof.
  intros Hz. unfold to_int.
  rewrite Z.mod_small by lia. lia.
Qed.

Lemma to_int_small (z : Z) : 0 ≤ z ≤ INT_MAX → to_int z = z.
Proof. unfold INT_MAX. intros Hz. apply to_int_id. lia. Qed.

Lemma to_size_t_small (z : Z) : 0 ≤ z < 2 ^ 64 → to_size_t z = z.
Proof. intros Hz. unfold to_size_t. apply Z.mod_small. lia. Qed.

(** Narrowing a [size_t] to [int] only looks at the low 32 bits. *)
Lemma to_int_to_size_t (z : Z) : to_int (to_size_t z) = to_int z.
Proof.
  unfold to_int, to_size_t. f_equal.
  rewrite (Z.mod_eq z (2 ^ 64)) by lia.
  replace (z - 2 ^ 64 * (z / 2 ^ 64) + 2 ^ 31)
    with (z + 2 ^ 31 + (- (z / 2 ^ 64) * 2 ^ 32) * 2 ^ 32) by lia.
  apply Z.mod_add. lia.
Qed.

Lemma to_size_t_add (a b : Z) :
  to_size_t (to_size_t a + to_size_t b) = to_size_t (a + b).
Proof. unfold to_size_t. symmetry. apply Zplus_mod. Qed.

Lemma to_size_t_sub (a b : Z) :
  to_size_t (to_size_t a - to_size_t b) = to_size_t (a - b).
Proof. unfold to_size_t. symmetry. apply Zminus_mod. Qed.

(** [distribute[i] += pattern_size - 1], without overflow. *)
Lemma add_overlap_exact (d m : Z) :
  - 2 ^ 31 ≤ d + (m - 1) < 2 ^ 31 →
  to_int (to_size_t (to_size_t d + to_size_t (m - 1))) = d + (m - 1).
Proof.
  intros H. rewrite to_size_t_add, to_int_to_size_t. by apply to_int_id.
Qed.

(** [displs[i - 1] + distribute[i - 1] - (pattern_size - 1)], without
    overflow. *)
Lemma sub_overlap_exact (s m : Z) :
  - 2 ^ 31 ≤ s < 2 ^ 31 → - 2 ^ 31 ≤ s - (m - 1) < 2 ^ 31 →
  to_int (to_size_t (to_size_t (to_int s) - to_size_t (m - 1))) = s - (m - 1).
Proof.
  intros Hs H. rewrite (to_int_id s) by done.
  rewrite to_size_t_sub, to_int_to_size_t. by apply to_int_id.
Qed.

(** ** Loops *)

Lemma seqZ_one (k : Z) : seqZ k 1 = [k].
Proof. rewrite seqZ_cons by lia. by rewrite seqZ_nil. Qed.

Lemma seqZ_snoc (k n : Z) : 0 ≤ n → seqZ k (n + 1) = seqZ k n ++ [k + n].
Proof. intros H. rewrite seqZ_app by lia. by rewrite seqZ_one. Qed.

Lemma for_range_empty {St : Type} (lo hi : Z) (body : Z → St → St) (s : St) :
  hi ≤ lo → for_range lo hi body s = s.
Proof. intros H. unfold for_range. by rewrite seqZ_nil by lia. Qed.

Lemma for_range_last {St : Type} (lo hi : Z) (body : Z → St → St) (s : St) :
  lo ≤ hi →
  for_range lo (hi + 1) body s = body hi (for_range lo hi body s).
Proof.
  intros H. unfold for_range.
  replace (hi + 1 - lo) with ((hi - lo) + 1) by lia.
  rewrite seqZ_snoc by lia. rewrite foldl_app. simpl.
  do 2 f_equal. lia.
Qed.

Lemma for_range_first {St : Type} (lo hi : Z) (body : Z → St → St) (s : St) :
  lo < hi →
  for_range lo hi body s = for_range (lo + 1) hi body (body lo s).
Proof.
  intros H. unfold for_range.
  rewrite seqZ_cons by lia. simpl.
  do 2 f_equal; lia.
Qed.

(** Invariant rule of the counted loop. *)
Lemma for_range_ind {St : Type} (I : Z → St → Prop) (lo hi : Z)
    (body : Z → St → St) (s : St) :
  lo ≤ hi →
  I lo s →
  (∀ i s, lo ≤ i < hi → I i s → I (i + 1) (body i s)) →
  I hi (for_range lo hi body s).
Proof.
  intros Hle H0 Hstep.
  assert (∀ n : nat, lo + Z.of_nat n ≤ hi →
            I (lo + Z.of_nat n) (for_range lo (lo + Z.of_nat n) body s)) as Hn.
  { induction n as [|n IH]; intros Hn.
    - rewrite Z.add_0_r, for_range_empty by lia. done.
    - replace (lo + Z.of_nat (S n)) with (lo + Z.of_nat n + 1) by lia.
      rewrite for_range_last by lia.
      apply Hstep; [lia|]. apply IH. lia. }
  specialize (Hn (Z.to_nat (hi - lo))).
  replace (lo + Z.of_nat (Z.to_nat (hi - lo))) with hi in Hn by lia.
  apply Hn. lia.
Qed.

(** ** The partition table *)

Section Partition.

Variables L m p : Z.
Hypothesis HL : 0 ≤ L.
Hypothesis Hm : 1 ≤ m.
Hypothesis Hp : 1 ≤ p.
Hypothesis Hfit : L + m ≤ INT_MAX.

Lemma div_bounds : 0 ≤ L / p ≤ L ∧ 0 ≤ L mod p < p ∧ L mod p ≤ L.
Proof.
  pose proof (Z.mod_pos_bound L p ltac:(lia)).
  pose proof (Z.div_pos L p ltac:(lia) ltac:(lia)).
  pose proof (Z.div_mod L p ltac:(lia)).
  split; [|nia]. split; [done|]. nia.
Qed.

Lemma spec_share_bounds i : 0 ≤ spec_share L p i ≤ L + 1.
Proof.
  pose proof div_bounds. unfold spec_share.
  destruct (i <? L mod p); lia.
Qed.

Lemma spec_offset_0 : spec_offset L p 0 = 0.
Proof. pose proof div_bounds. unfold spec_offset. lia. Qed.

Lemma spec_offset_succ i :
  0 ≤ i → spec_offset L p (i + 1) = spec_offset L p i + spec_share L p i.
Proof.
  intros Hi. unfold spec_offset, spec_share.
  destruct (Z.ltb_spec i (L mod p)); lia.
Qed.

(** The shares add up to the corpus length. *)
Lemma spec_offset_total : spec_offset L p p = L.
Proof.
  pose proof div_bounds. unfold spec_offset.
  pose proof (Z.div_mod L p ltac:(lia)). lia.
Qed.

Lemma spec_offset_mono i j :
  0 ≤ i ≤ j → spec_offset L p i ≤ spec_offset L p j.
Proof.
  pose proof div_bounds. intros Hij. unfold spec_offset. nia.
Qed.

Lemma spec_offset_bounds i : 0 ≤ i ≤ p → 0 ≤ spec_offset L p i ≤ L.
Proof.
  intros Hi.
  pose proof (spec_offset_mono 0 i ltac:(lia)) as H0.
  pose proof (spec_offset_mono i p ltac:(lia)) as H1.
  rewrite spec_offset_0 in H0. rewrite spec_offset_total in H1. lia.
Qed.

Lemma distribute_loop_inv (a : gmap Z Z) (k : Z) :
  0 ≤ k ≤ p →
  (for_range 0 k (distribute_body (L / p) m p) (a, L mod p)).2
    = Z.max 0 (L mod p - k) ∧
  ∀ i, 0 ≤ i < k →
    (for_range 0 k (distribute_body (L / p) m p) (a, L mod p)).1 !!! i
      = spec_size L m p i.
Proof.
  intros Hkp. pose proof div_bounds as Hdiv.
  assert (L + m < 2 ^ 31) as Hfit' by (unfold INT_MAX in Hfit; lia).
  apply (for_range_ind
    (λ k st, st.2 = Z.max 0 (L mod p - k) ∧
             ∀ i, 0 ≤ i < k → st.1 !!! i = spec_size L m p i)); [lia| |].
  - simpl. split; [lia|]. intros; lia.
  - clear a. intros j [d r] Hj [Hr Hd]. simpl in *. subst r.
    assert (0 ≤ j < p) as Hk by lia. clear Hj Hkp k.
    rename j into k.
    assert (∀ i, spec_size L m p i = spec_share L p i
              + (if i <? p - 1 then m - 1 else 0)) as Hsz by done.
    pose proof (spec_share_bounds k) as Hsh. unfold spec_share in Hsh.
    assert (∀ (c : bool) (x : gmap Z Z) y,
      (if c then <[k:=y]> x else x) !!! k = if c then y else x !!! k) as Hif.
    { intros [] ??; [by rewrite lookup_total_insert_eq|done]. }
    assert (∀ (c : bool) (x : gmap Z Z) y i, i ≠ k →
      (if c then <[k:=y]> x else x) !!! i = x !!! i) as Hif'.
    { intros [] ????; [by rewrite lookup_total_insert_ne|done]. }
    destruct (Z.ltb_spec 0 (Z.max 0 (L mod p - k))) as [Hlt|Hge]; simpl.
    + split.
      * rewrite to_int_small by lia. lia.
      * intros i Hi. destruct (decide (i = k)) as [->|Hne].
        -- rewrite Hif, !lookup_total_insert_eq.
           rewrite (to_int_small (L / p + 1)) by lia.
           rewrite Hsz. unfold spec_share.
           destruct (Z.ltb_spec k (L mod p)); [|lia].
           destruct (Z.ltb_spec k (p - 1)); [|lia].
           apply add_overlap_exact. lia.
        -- rewrite Hif' by done.
           rewrite !lookup_total_insert_ne by done. apply Hd. lia.
    + split; [lia|].
      intros i Hi. destruct (decide (i = k)) as [->|Hne].
      * rewrite Hif, !lookup_total_insert_eq.
        rewrite Hsz. unfold spec_share.
        destruct (Z.ltb_spec k (L mod p)); [lia|].
        destruct (Z.ltb_spec k (p - 1)); [|lia].
        rewrite add_overlap_exact; lia.
      * rewrite Hif' by done.
        rewrite !lookup_total_insert_ne by done. apply Hd. lia.
Qed.

(** [distribute_file] fills the cells [0 .. p - 1] with the sizes of the
    specification. *)
Lemma distribute_file_lookup (a : gmap Z Z) (i : Z) :
  0 ≤ i < p → distribute_file L m p a !!! i = spec_size L m p i.
Proof.
  intros Hi. pose proof div_bounds as Hdiv. unfold distribute_file.
  rewrite Z.quot_div_nonneg, Z.rem_mod_nonneg by lia.
  rewrite !to_int_small by lia.
  destruct (distribute_loop_inv a p ltac:(lia)) as [_ Hcells].
  by apply Hcells.
Qed.

(** [displacment] fills the cells [0 .. p - 1] with the starts of the
    territories, whatever array of sizes of the right shape it is given. *)
Lemma displacment_lookup (a distribute : gmap Z Z) (i : Z) :
  (∀ j, 0 ≤ j < p → distribute !!! j = spec_size L m p j) →
  0 ≤ i < p → displacment a distribute m p !!! i = spec_offset L p i.
Proof.
  intros Hd Hi. unfold displacment.
  assert (L + m < 2 ^ 31) as Hfit' by (unfold INT_MAX in Hfit; lia).
  revert i Hi.
  apply (for_range_ind
    (λ k (displs : gmap Z Z),
       ∀ i, 0 ≤ i < k → displs !!! i = spec_offset L p i)); [lia| |].
  - intros i Hi. replace i with 0 by lia.
    by rewrite lookup_total_insert_eq, spec_offset_0.
  - intros k displs Hk IH i Hi.
    destruct (decide (i = k)) as [->|Hne].
    + rewrite lookup_total_insert_eq.
      rewrite IH, Hd by lia. unfold spec_size.
      destruct (Z.ltb_spec (k - 1) (p - 1)); [|lia].
      pose proof (spec_offset_succ (k - 1) ltac:(lia)) as Hs.
      replace (k - 1 + 1) with k in Hs by lia.
      pose proof (spec_offset_bounds k ltac:(lia)).
      rewrite sub_overlap_exact; lia.
    + rewrite lookup_total_insert_ne by done. apply IH. lia.
Qed.

End Partition.

(** ** Arrays read as lists *)

Lemma cells_empty (a : gmap Z Z) (n : Z) : n ≤ 0 → cells a n = [].
Proof. intros H. unfold cells. by rewrite seqZ_nil. Qed.

Lemma cells_snoc (a : gmap Z Z) (n : Z) :
  0 ≤ n → cells a (n + 1) = cells a n ++ [a !!! n].
Proof.
  intros H. unfold cells. rewrite seqZ_snoc by lia.
  by rewrite fmap_app, Z.add_0_l.
Qed.

Lemma cells_ext (a b : gmap Z Z) (n : Z) :
  (∀ i, 0 ≤ i < n → a !!! i = b !!! i) → cells a n = cells b n.
Proof.
  intros H. unfold cells. apply list_fmap_ext.
  intros k i Hk. apply lookup_seqZ in Hk. apply H. lia.
Qed.

Lemma cells_insert_above (a : gmap Z Z) (n k v : Z) :
  n ≤ k → cells (<[k := v]> a) n = cells a n.
Proof.
  intros H. apply cells_ext. intros i Hi.
  apply lookup_total_insert_ne. lia.
Qed.

Lemma length_cells (a : gmap Z Z) (n : Z) : length (cells a n) = Z.to_nat n.
Proof. unfold cells. by rewrite length_fmap, length_seqZ. Qed.

(** ** The matcher *)

Lemma compare_from_spec (fuel : nat) (file pattern : list byte)
    (i j pattern_size : Z) (ncmp : nat) :
  0 ≤ j ≤ pattern_size → fuel = Z.to_nat (pattern_size - j) →
  ((compare_from fuel file pattern i j pattern_size ncmp).1 =? pattern_size)
  = forallb (λ j, Byte.eqb (file !!! Z.to_nat (i + j)) (pattern !!! Z.to_nat j))
            (seqZ j (pattern_size - j)).
Proof.
  revert j ncmp. induction fuel as [|fuel IH]; intros j ncmp Hj Hfuel; simpl.
  - rewrite seqZ_nil by lia. simpl. apply Z.eqb_eq. lia.
  - destruct (Z.ltb_spec j pattern_size) as [Hlt|Hge]; [|lia].
    rewrite seqZ_cons by lia. simpl.
    destruct (Byte.eqb _ _); simpl.
    + rewrite IH by lia. do 2 f_equal; lia.
    + apply Z.eqb_neq. lia.
Qed.

Lemma compare_from_occurs (file pattern : list byte) (i pattern_size : Z)
    (ncmp : nat) :
  0 ≤ pattern_size →
  ((compare_from (Z.to_nat pattern_size) file pattern i 0 pattern_size ncmp).1
     =? pattern_size) = occurs_at file pattern pattern_size i.
Proof.
  intros H. rewrite compare_from_spec by (f_equal; lia).
  unfold occurs_at. by rewrite Z.sub_0_r.
Qed.

Lemma hits_snoc (file pattern : list byte) (pattern_size n : Z) :
  0 ≤ n →
  hits file pattern pattern_size (n + 1)
  = hits file pattern pattern_size n
      ++ (if occurs_at file pattern pattern_size n then [n] else []).
Proof.
  intros H. unfold hits. rewrite seqZ_snoc by lia. rewrite filter_app.
  f_equal. rewrite Z.add_0_l, filter_cons, filter_nil.
  destruct (occurs_at _ _ _ n); by case_decide.
Qed.

Lemma length_hits (file pattern : list byte) (pattern_size n : Z) :
  0 ≤ n → Z.of_nat (length (hits file pattern pattern_size n)) ≤ n.
Proof.
  intros H. unfold hits.
  pose proof (length_filter
    (λ i, occurs_at file pattern pattern_size i = true) (seqZ 0 n)) as Hle.
  rewrite length_seqZ in Hle. lia.
Qed.

(** The body of the outer loop, in terms of [occurs_at]. *)
Lemma find_body_spec (file pattern : list byte) (pattern_size displacment i : Z)
    (st : matcher) :
  0 ≤ pattern_size →
  found (find_body file pattern pattern_size displacment i st)
    = (if occurs_at file pattern pattern_size i
       then <[count st := to_int (i + displacment)]> (found st)
       else found st) ∧
  count (find_body file pattern pattern_size displacment i st)
    = (if occurs_at file pattern pattern_size i
       then to_int (count st + 1) else count st).
Proof.
  intros H. unfold find_body.
  pose proof (compare_from_occurs file pattern i pattern_size (compared st) H)
    as Hocc.
  destruct (compare_from _ _ _ _ _ _ _) as [j ncmp]. simpl in Hocc.
  rewrite Hocc. by destruct (occurs_at _ _ _ _).
Qed.

(** Started on an empty result buffer, [find_string] stores the absolute
    offsets of the occurrences, in the order of the scan, in the cells
    [0 .. count - 1] of [found]. *)
Lemma find_string_spec (file pattern : list byte)
    (file_size pattern_size displacment id : Z) (fd : gmap Z Z) (nc : nat) :
  1 ≤ pattern_size ≤ INT_MAX → 0 ≤ file_size ≤ INT_MAX →
  let st := find_string file pattern file_size pattern_size displacment id
              {| found := fd; count := 0; compared := nc |} in
  let found_at :=
    hits file pattern pattern_size (file_size - pattern_size + 1) in
  count st = Z.of_nat (length found_at) ∧
  cells (found st) (count st) = (λ i, to_int (i + displacment)) <$> found_at.
Proof.
  intros Hps Hfs. simpl. unfold find_string.
  assert (file_size < 2 ^ 31 ∧ pattern_size < 2 ^ 31) as Hfs'
    by (unfold INT_MAX in *; lia).
  destruct (Z.le_gt_cases pattern_size file_size) as [Hle|Hgt].
  - rewrite to_int_id by lia.
    apply (for_range_ind
      (λ k st, count st = Z.of_nat (length (hits file pattern pattern_size k)) ∧
               cells (found st) (count st)
               = (λ i, to_int (i + displacment))
                   <$> hits file pattern pattern_size k)); [lia| |].
    + cbv beta. unfold hits. by rewrite seqZ_nil.
    + intros k st Hk [Hc Hf].
      destruct (find_body_spec file pattern pattern_size displacment k st
                  ltac:(lia)) as [-> ->].
      rewrite hits_snoc by lia.
      pose proof (length_hits file pattern pattern_size k ltac:(lia)) as Hlen.
      destruct (occurs_at file pattern pattern_size k).
      * rewrite to_int_id by lia. rewrite length_app, fmap_app. simpl.
        split; [lia|].
        rewrite cells_snoc by lia. rewrite lookup_total_insert_eq.
        rewrite cells_insert_above by lia. by rewrite Hf.
      * rewrite app_nil_r. done.
  - rewrite to_int_id by lia.
    rewrite for_range_empty by lia. simpl.
    unfold hits. rewrite seqZ_nil by lia. done.
Qed.

(** ** Aggregation *)

Lemma sent_before_0 (cnt : Z → Z) : sent_before cnt 0 = 0.
Proof. done. Qed.

Lemma sent_before_succ (cnt : Z → Z) (k : Z) :
  0 ≤ k → sent_before cnt (k + 1) = sent_before cnt k + cnt k.
Proof.
  intros H. unfold sent_before. rewrite seqZ_snoc by lia.
  rewrite fmap_app, foldr_app. simpl. rewrite Z.add_0_l, Z.add_0_r.
  generalize (cnt <$> seqZ 0 k). intros l. induction l as [|x l IH]; simpl.
  - lia.
  - rewrite IH. lia.
Qed.

(** A block of consecutive cells written by a counted loop. *)
Lemma write_block_lookup (buf : gmap Z Z) (d n : Z) (v : Z → Z) (j : Z) :
  (d ≤ j < d + n →
   for_range 0 n (λ k buf, <[d + k := v k]> buf) buf !!! j = v (j - d)) ∧
  (¬ d ≤ j < d + n →
   for_range 0 n (λ k buf, <[d + k := v k]> buf) buf !!! j = buf !!! j).
Proof.
  destruct (Z.le_gt_cases n 0) as [Hn|Hn].
  { rewrite for_range_empty by lia. split; [lia|done]. }
  revert j.
  apply (for_range_ind
    (λ n (b : gmap Z Z), ∀ j,
       (d ≤ j < d + n → b !!! j = v (j - d)) ∧
       (¬ d ≤ j < d + n → b !!! j = buf !!! j))); [lia| |].
  - intros j. split; [lia|done].
  - intros k b Hk IH j. destruct (decide (j = d + k)) as [->|Hne].
    + rewrite lookup_total_insert_eq. split; [|lia].
      intros _. f_equal. lia.
    + rewrite lookup_total_insert_ne by done.
      destruct (IH j) as [IH1 IH2]. split; intros; [apply IH1|apply IH2]; lia.
Qed.

Lemma print_block (arr : gmap Z Z) (offset n : Z) (out : list Z) :
  for_range 0 n (λ j out, out ++ [arr !!! to_int (offset + j)]) out
  = out ++ ((λ j, arr !!! to_int (offset + j)) <$> seqZ 0 n).
Proof.
  destruct (Z.le_gt_cases n 0) as [Hn|Hn].
  { rewrite for_range_empty, seqZ_nil by lia. by rewrite app_nil_r. }
  apply (for_range_ind
    (λ n o, o = out ++ ((λ j, arr !!! to_int (offset + j)) <$> seqZ 0 n)));
    [lia| |].
  - by rewrite seqZ_nil, app_nil_r.
  - intros k o Hk ->. rewrite seqZ_snoc by lia.
    by rewrite fmap_app, app_assoc.
Qed.

Section Aggregation.

Variable p : Z.
Variable cnt : Z → Z.
Variable fnd : Z → gmap Z Z.
Hypothesis Hp : 1 ≤ p.
Hypothesis Hcnt : ∀ i, 0 ≤ i < p → 0 ≤ cnt i.
Hypothesis Htotal : sent_before cnt p ≤ INT_MAX.

Lemma sent_before_mono i j :
  0 ≤ i ≤ j → j ≤ p → sent_before cnt i ≤ sent_before cnt j.
Proof.
  intros Hij Hj.
  assert (∀ n : nat, i + Z.of_nat n ≤ p →
            sent_before cnt i ≤ sent_before cnt (i + Z.of_nat n)) as Hn.
  { induction n as [|n IH]; intros Hn.
    - by rewrite Z.add_0_r.
    - replace (i + Z.of_nat (S n)) with (i + Z.of_nat n + 1) by lia.
      rewrite sent_before_succ by lia.
      pose proof (Hcnt (i + Z.of_nat n) ltac:(lia)).
      pose proof (IH ltac:(lia)). lia. }
  specialize (Hn (Z.to_nat (j - i))).
  replace (i + Z.of_nat (Z.to_nat (j - i))) with j in Hn by lia.
  apply Hn. lia.
Qed.

Lemma sent_before_bounds i : 0 ≤ i ≤ p → 0 ≤ sent_before cnt i ≤ INT_MAX.
Proof.
  intros Hi.
  pose proof (sent_before_mono 0 i ltac:(lia) ltac:(lia)) as H0.
  pose proof (sent_before_mono i p ltac:(lia) ltac:(lia)) as H1.
  rewrite sent_before_0 in H0. lia.
Qed.

Lemma gather_counts_lookup (a : gmap Z Z) (i : Z) :
  0 ≤ i < p → gather_counts cnt p a !!! i = cnt i.
Proof.
  unfold gather_counts. revert i.
  apply (for_range_ind
    (λ k (b : gmap Z Z), ∀ i, 0 ≤ i < k → b !!! i = cnt i)); [lia| |].
  - intros; lia.
  - intros k b Hk IH i Hi. destruct (decide (i = k)) as [->|Hne].
    + by rewrite lookup_total_insert_eq.
    + rewrite lookup_total_insert_ne by done. apply IH. lia.
Qed.

Lemma gather_displs_lookup (recv_counts : gmap Z Z) (i : Z) :
  (∀ j, 0 ≤ j < p → recv_counts !!! j = cnt j) →
  0 ≤ i < p → gather_displs recv_counts p !!! i = sent_before cnt i.
Proof.
  intros Hrc. unfold gather_displs. revert i.
  apply (for_range_ind
    (λ k (d : gmap Z Z), ∀ i, 0 ≤ i < k → d !!! i = sent_before cnt i));
    [lia| |].
  - intros i Hi. replace i with 0 by lia.
    by rewrite lookup_total_insert_eq.
  - intros k d Hk IH i Hi. destruct (decide (i = k)) as [->|Hne].
    + rewrite lookup_total_insert_eq, IH, Hrc by lia.
      rewrite <- sent_before_succ by lia.
      replace (k - 1 + 1) with k by lia.
      apply to_int_small, sent_before_bounds. lia.
    + rewrite lookup_total_insert_ne by done. apply IH. lia.
Qed.

(** After [gatherv_blocks] the block of rank [i] starts at cell
    [sent_before cnt i] of the receive buffer. *)
Lemma gatherv_blocks_lookup (recv_counts displs a : gmap Z Z) (i k : Z) :
  (∀ j, 0 ≤ j < p → recv_counts !!! j = cnt j) →
  (∀ j, 0 ≤ j < p → displs !!! j = sent_before cnt j) →
  0 ≤ i < p → 0 ≤ k < cnt i →
  gatherv_blocks fnd recv_counts displs p a !!! (sent_before cnt i + k)
  = fnd i !!! k.
Proof.
  intros Hrc Hdp. unfold gatherv_blocks. revert i k.
  apply (for_range_ind
    (λ t (b : gmap Z Z), ∀ i k, 0 ≤ i < t → 0 ≤ k < cnt i →
       b !!! (sent_before cnt i + k) = fnd i !!! k)); [lia| |].
  - intros; lia.
  - intros t b Ht IH i k Hi Hk.
    rewrite Hrc, Hdp by lia.
    destruct (write_block_lookup b (sent_before cnt t) (cnt t)
                (λ k, fnd t !!! k) (sent_before cnt i + k)) as [Hin Hout].
    destruct (decide (i = t)) as [->|Hne].
    + rewrite Hin by lia. f_equal. lia.
    + pose proof (sent_before_mono (i + 1) t ltac:(lia) ltac:(lia)) as Hm.
      rewrite sent_before_succ in Hm by lia.
      rewrite Hout by lia. apply IH; lia.
Qed.

(** [print_index] prints the blocks in the order of the ranks. *)
Lemma print_index_blocks (arr recv_counts : gmap Z Z) :
  (∀ j, 0 ≤ j < p → recv_counts !!! j = cnt j) →
  (∀ i k, 0 ≤ i < p → 0 ≤ k < cnt i →
     arr !!! (sent_before cnt i + k) = fnd i !!! k) →
  print_index arr recv_counts p
  = concat ((λ i, cells (fnd i) (cnt i)) <$> seqZ 0 p).
Proof.
  intros Hrc Harr. unfold print_index.
  assert (∀ t, 0 ≤ t ≤ p →
    for_range 0 t (λ i '(offset, out),
       (to_int (offset + recv_counts !!! i),
        for_range 0 (recv_counts !!! i)
                  (λ j out, out ++ [arr !!! to_int (offset + j)]) out))
      (0, [])
    = (sent_before cnt t,
       concat ((λ i, cells (fnd i) (cnt i)) <$> seqZ 0 t))) as Hloop.
  { intros t Ht.
    apply (for_range_ind
      (λ t (st : Z * list Z), st = (sent_before cnt t,
         concat ((λ i, cells (fnd i) (cnt i)) <$> seqZ 0 t)))); [lia|done|].
    intros k st Hk ->. rewrite print_block, Hrc by lia.
    rewrite <- sent_before_succ by lia.
    rewrite to_int_small by (apply sent_before_bounds; lia).
    f_equal. rewrite seqZ_snoc by lia.
    rewrite fmap_app, concat_app. simpl. rewrite app_nil_r, Z.add_0_l.
    f_equal. unfold cells. apply list_fmap_ext. intros n j Hj.
    apply lookup_seqZ in Hj.
    pose proof (sent_before_bounds (k + 1) ltac:(lia)) as Hb.
    rewrite sent_before_succ in Hb by lia.
    pose proof (sent_before_bounds k ltac:(lia)).
    rewrite to_int_small by lia. apply Harr; lia. }
  by rewrite Hloop by lia.
Qed.

(** The two gathers followed by the printing loop output the offsets of
    rank 0, then those of rank 1, and so on. *)
Lemma aggregate_concat :
  let recv_counts := gather_counts cnt p ∅ in
  print_index
    (gatherv_blocks fnd recv_counts (gather_displs recv_counts p) p ∅)
    recv_counts p
  = concat ((λ i, cells (fnd i) (cnt i)) <$> seqZ 0 p).
Proof.
  intros recv_counts.
  assert (∀ j, 0 ≤ j < p → recv_counts !!! j = cnt j) as Hrc
    by (intros; by apply gather_counts_lookup).
  apply print_index_blocks; [done|].
  intros i k Hi Hk. apply gatherv_blocks_lookup; [done| |done|done].
  intros j Hj. by apply gather_displs_lookup.
Qed.

End Aggregation.

(** ** The whole run *)

(** The lemmas on [worker], [kernel], [processes] and [mpirun] are about
    [main_body]: about runs in which the allocations succeed and [found]
    has room for every store. *)

Lemma forallb_ext_in {A : Type} (f g : A → bool) (l : list A) :
  (∀ x, x ∈ l → f x = g x) → forallb f l = forallb g l.
Proof.
  induction l as [|x l IH]; intros H; simpl; [done|].
  rewrite H by constructor. rewrite IH; [done|].
  intros y Hy. apply H. by constructor.
Qed.

Lemma filter_shift (f g : Z → bool) (d n : Z) :
  (∀ i, 0 ≤ i < n → f i = g (d + i)) →
  (λ i, i + d) <$> filter (λ i, f i = true) (seqZ 0 n)
  = filter (λ o, g o = true) (seqZ d n).
Proof.
  intros H. destruct (Z.le_gt_cases n 0) as [Hn|Hn].
  { by rewrite !seqZ_nil by lia. }
  assert (∀ k : nat, Z.of_nat k ≤ n →
    (λ i, i + d) <$> filter (λ i, f i = true) (seqZ 0 (Z.of_nat k))
    = filter (λ o, g o = true) (seqZ d (Z.of_nat k))) as Hk.
  { induction k as [|k IH]; intros Hk; [done|].
    rewrite !seqZ_S, !filter_app, fmap_app, IH by lia. f_equal.
    rewrite !filter_cons, !filter_nil, Z.add_0_l, H by lia.
    destruct (g (d + Z.of_nat k)); repeat case_decide; try done.
    simpl. f_equal. lia. }
  specialize (Hk (Z.to_nat n)). rewrite Z2Nat.id in Hk by lia.
  apply Hk. lia.
Qed.

Lemma length_filter_seqZ (P : Z → Prop) `{!∀ x, Decision (P x)} (d n : Z) :
  0 ≤ n → Z.of_nat (length (filter P (seqZ d n))) ≤ n.
Proof.
  intros Hn. pose proof (length_filter P (seqZ d n)) as Hle.
  rewrite length_seqZ in Hle. lia.
Qed.

Lemma sent_before_length (cnt : Z → Z) (ls : Z → list Z) (k : Z) :
  0 ≤ k →
  (∀ i, 0 ≤ i < k → cnt i = Z.of_nat (length (ls i))) →
  sent_before cnt k = Z.of_nat (length (concat (ls <$> seqZ 0 k))).
Proof.
  intros Hk H.
  assert (∀ n : nat, Z.of_nat n ≤ k →
    sent_before cnt (Z.of_nat n)
    = Z.of_nat (length (concat (ls <$> seqZ 0 (Z.of_nat n))))) as Hn.
  { induction n as [|n IH]; intros Hn; [done|].
    rewrite seqZ_S, fmap_app, concat_app, length_app. simpl.
    rewrite app_nil_r, Z.add_0_l, Nat2Z.inj_add, <- IH, <- H by lia.
    rewrite Nat2Z.inj_succ, <- Z.add_1_r.
    by rewrite sent_before_succ by lia. }
  specialize (Hn (Z.to_nat k)). rewrite Z2Nat.id in Hn by lia.
  apply Hn. lia.
Qed.

Section Search.

Variable beyond : Z → byte.
Variables pattern file : list byte.
Variable p : Z.

(** The sizes as [main] has them: [file_size] bytes are read, the last
    one is left out of the distribution. *)
Let file_size : Z := Z.of_nat (length file).
Let m : Z := Z.of_nat (length pattern).
Let L : Z := file_size - 1.

Hypothesis Hm : 1 ≤ m.
Hypothesis HmL : m ≤ L.
Hypothesis Hp : 1 ≤ p.
Hypothesis Hfit : file_size + m ≤ INT_MAX.

Let mem : Z → byte := read_buffer beyond file.
Let distribute : gmap Z Z := root_distribute file_size m p.
Let displs : gmap Z Z := root_displs file_size m p.

Lemma distribute_spec i : 0 ≤ i < p → distribute !!! i = spec_size L m p i.
Proof.
  intros Hi. unfold distribute, root_distribute.
  apply distribute_file_lookup; unfold L in *; lia.
Qed.

Lemma displs_spec i : 0 ≤ i < p → displs !!! i = spec_offset L p i.
Proof.
  intros Hi. unfold displs, root_displs.
  apply displacment_lookup; [unfold L in *; lia ..| |done].
  apply distribute_spec.
Qed.

Lemma candidates_inner i : 0 ≤ i < p - 1 → candidates L m p i = spec_share L p i.
Proof.
  intros Hi. unfold candidates, spec_size.
  destruct (Z.ltb_spec i (p - 1)); lia.
Qed.

Lemma candidates_last : candidates L m p (p - 1) = spec_share L p (p - 1) - m + 1.
Proof.
  unfold candidates, spec_size.
  destruct (Z.ltb_spec (p - 1) (p - 1)); lia.
Qed.

Lemma spec_size_bounds i : 0 ≤ i < p → 0 ≤ spec_size L m p i ≤ L + m.
Proof.
  intros Hi. pose proof (spec_share_bounds L p ltac:(unfold L in *; lia)
    ltac:(lia) i) as Hs.
  unfold spec_size. destruct (i <? p - 1); lia.
Qed.

(** What rank [i] finds: the occurrences that start in the first
    [candidates L m p i] positions of its block. *)
Lemma worker_spec i :
  0 ≤ i < p →
  let w := worker beyond file pattern distribute displs m i in
  let l := filter (λ o, occurs_in mem pattern o = true)
                  (seqZ (spec_offset L p i) (candidates L m p i)) in
  count w = Z.of_nat (length l) ∧ cells (found w) (count w) = l.
Proof.
  intros Hi. cbv zeta. unfold worker.
  assert (0 ≤ L) as HL by lia.
  pose proof (spec_size_bounds i Hi) as Hsz.
  pose proof (spec_offset_bounds L p HL Hp i ltac:(lia)) as Hoff.
  pose proof (spec_offset_succ L p i ltac:(lia)) as Hsucc.
  pose proof (spec_offset_bounds L p HL Hp (i + 1) ltac:(lia)) as Hoff'.
  rewrite (to_int_small m) by lia.
  rewrite distribute_spec, displs_spec by done.
  destruct (find_string_spec
    (scatterv_block beyond file distribute displs i) pattern
    (spec_size L m p i) m (spec_offset L p i) i ∅ O) as [Hc Hf];
    [lia|lia|].
  rewrite Hf, Hc. clear Hc Hf.
  assert ((λ k, to_int (k + spec_offset L p i)) <$>
            hits (scatterv_block beyond file distribute displs i) pattern m
                 (spec_size L m p i - m + 1)
          = filter (λ o, occurs_in mem pattern o = true)
                   (seqZ (spec_offset L p i) (candidates L m p i))) as Heq.
  { rewrite <- (filter_shift
      (occurs_at (scatterv_block beyond file distribute displs i) pattern m)).
    - unfold hits, candidates. apply list_fmap_ext. intros n k Hk.
      apply list_elem_of_lookup_2, list_elem_of_filter in Hk
        as [_ Hk%elem_of_seqZ].
      assert (candidates L m p i ≤ spec_share L p i) as Hcand.
      { unfold candidates, spec_size. destruct (i <? p - 1); lia. }
      unfold candidates in Hcand. apply to_int_small. lia.
    - intros k Hk. unfold occurs_at, occurs_in. fold m.
      apply forallb_ext_in. intros j Hj%elem_of_seqZ.
      unfold scatterv_block.
      rewrite distribute_spec, displs_spec by done.
      rewrite list_lookup_total_alt, list_lookup_fmap.
      rewrite lookup_seqZ_lt by (unfold candidates in Hk; lia).
      simpl. unfold mem. do 2 f_equal. lia. }
  rewrite Heq. split; [|done]. by rewrite <- Heq, length_fmap.
Qed.

Let occ (o : Z) : Prop := occurs_in mem pattern o = true.

(** The ranks below the last one look, together, at the positions below
    the start of the last territory. *)
Lemma inner_ranks_scan k :
  0 ≤ k ≤ p - 1 →
  concat ((λ i, filter occ (seqZ (spec_offset L p i) (candidates L m p i)))
            <$> seqZ 0 k)
  = filter occ (seqZ 0 (spec_offset L p k)).
Proof.
  intros Hk. assert (0 ≤ L) as HL by lia.
  assert (∀ n : nat, Z.of_nat n ≤ p - 1 →
    concat ((λ i, filter occ (seqZ (spec_offset L p i) (candidates L m p i)))
              <$> seqZ 0 (Z.of_nat n))
    = filter occ (seqZ 0 (spec_offset L p (Z.of_nat n)))) as Hn.
  { induction n as [|n IH]; intros Hn.
    - simpl. by rewrite spec_offset_0.
    - rewrite seqZ_S, fmap_app, concat_app, IH by lia. simpl.
      rewrite app_nil_r, Z.add_0_l, candidates_inner by lia.
      rewrite Nat2Z.inj_succ, <- Z.add_1_r, spec_offset_succ by lia.
      pose proof (spec_offset_bounds L p HL Hp (Z.of_nat n) ltac:(lia)).
      pose proof (spec_share_bounds L p HL Hp (Z.of_nat n)).
      rewrite (seqZ_app 0) by lia. by rewrite filter_app, Z.add_0_l. }
  specialize (Hn (Z.to_nat k)). rewrite Z2Nat.id in Hn by lia.
  apply Hn. lia.
Qed.

Lemma all_ranks_scan :
  concat ((λ i, filter occ (seqZ (spec_offset L p i) (candidates L m p i)))
            <$> seqZ 0 p)
  = filter occ (seqZ 0 (scanned L m p)).
Proof.
  assert (0 ≤ L) as HL by lia.
  replace p with ((p - 1) + 1) at 1 by lia.
  rewrite seqZ_snoc, fmap_app, concat_app, inner_ranks_scan by lia.
  simpl. rewrite app_nil_r, Z.add_0_l, candidates_last.
  pose proof (spec_offset_succ L p (p - 1) ltac:(lia)) as Hlast.
  replace (p - 1 + 1) with p in Hlast by lia.
  rewrite spec_offset_total in Hlast by lia.
  pose proof (spec_offset_bounds L p HL Hp (p - 1) ltac:(lia)).
  unfold scanned.
  destruct (Z.le_gt_cases 0 (spec_share L p (p - 1) - m + 1)) as [Hge|Hlt].
  - rewrite <- filter_app, <- seqZ_app by lia.
    do 2 f_equal. lia.
  - rewrite (seqZ_nil _ (_ - m + 1)) by lia.
    rewrite filter_nil, app_nil_r. do 2 f_equal. lia.
Qed.

Lemma scanned_bounds : L - m + 1 ≤ scanned L m p ≤ L.
Proof.
  assert (0 ≤ L) as HL by lia.
  pose proof (spec_offset_bounds L p HL Hp (p - 1) ltac:(lia)).
  unfold scanned. lia.
Qed.

(** The output of a run: the offsets below [scanned L m p] at which the
    pattern occurs in the root's memory, in ascending order. *)
Lemma kernel_spec :
  kernel beyond pattern file p = Finished (filter occ (seqZ 0 (scanned L m p))).
Proof.
  unfold kernel. fold file_size m.
  rewrite to_size_t_small by (unfold INT_MAX in Hfit; lia).
  destruct (Z.ltb_spec (file_size - 1) m) as [Hlt|_]; [unfold L in *; lia|].
  fold distribute displs. f_equal.
  pose proof scanned_bounds as Hsc.
  assert (∀ i, 0 ≤ i < p →
    count (worker beyond file pattern distribute displs m i)
    = Z.of_nat (length
        (filter occ (seqZ (spec_offset L p i) (candidates L m p i))))) as Hcount.
  { intros i Hi. by destruct (worker_spec i Hi) as [-> _]. }
  rewrite aggregate_concat; [|done| |].
  - rewrite <- all_ranks_scan. f_equal. apply list_fmap_ext.
    intros n i Hi%lookup_seqZ. by destruct (worker_spec i) as [_ ->]; [lia|].
  - intros i Hi. rewrite Hcount by done. lia.
  - rewrite (sent_before_length _
      (λ i, filter occ (seqZ (spec_offset L p i) (candidates L m p i))))
      by (done || lia).
    rewrite all_ranks_scan.
    pose proof (length_filter_seqZ occ 0 (scanned L m p) ltac:(lia)). lia.
Qed.

End Search.

(** ** Occurrences in the corpus *)

Lemma read_buffer_corpus (beyond : Z → byte) (C : list byte) (s : byte) (k : Z) :
  0 ≤ k < Z.of_nat (length C) →
  Some (read_buffer beyond (C ++ [s]) k) = C !! Z.to_nat k.
Proof.
  intros Hk. unfold read_buffer.
  rewrite bool_decide_eq_true_2 by (rewrite length_app; simpl; lia).
  rewrite list_lookup_total_alt, lookup_app_l by lia.
  destruct (lookup_lt_is_Some_2 C (Z.to_nat k) ltac:(lia)) as [x ->]. done.
Qed.

Lemma occurs_in_occurrence (beyond : Z → byte) (C P : list byte) (s : byte)
    (o : Z) :
  0 ≤ o → o + Z.of_nat (length P) ≤ Z.of_nat (length C) →
  occurs_in (read_buffer beyond (C ++ [s])) P o = true ↔ occurrence C P o.
Proof.
  intros Ho Hfit. unfold occurs_in, occurrence.
  rewrite forallb_forall. split.
  - intros H. split; [done|].
    apply (list_eq_same_length _ _ (length P)); [done| |].
    { rewrite length_take, length_drop. lia. }
    intros i x y Hi Hx Hy.
    rewrite lookup_take_lt, lookup_drop in Hx by done.
    specialize (H (Z.of_nat i)).
    rewrite <- list_elem_of_In, elem_of_seqZ in H.
    specialize (H ltac:(lia)). apply byte_dec_bl in H.
    pose proof (read_buffer_corpus beyond C s (o + Z.of_nat i) ltac:(lia))
      as Hr.
    rewrite H, Nat2Z.id in Hr.
    replace (Z.to_nat (o + Z.of_nat i)) with (Z.to_nat o + i)%nat in Hr by lia.
    rewrite list_lookup_total_alt, Hy in Hr. simpl in Hr. congruence.
  - intros [_ Heq] j Hj. rewrite <- list_elem_of_In, elem_of_seqZ in Hj.
    apply byte_dec_lb.
    assert (P !! Z.to_nat j = C !! (Z.to_nat o + Z.to_nat j)%nat) as HP.
    { rewrite <- Heq at 1. rewrite lookup_take_lt, lookup_drop by lia. done. }
    pose proof (read_buffer_corpus beyond C s (o + j) ltac:(lia)) as Hr.
    replace (Z.to_nat (o + j)) with (Z.to_nat o + Z.to_nat j)%nat in Hr by lia.
    rewrite <- HP in Hr. rewrite list_lookup_total_alt, <- Hr. done.
Qed.

Lemma filter_eq_once (l : list Z) (o : Z) :
  NoDup l → o ∈ l → length (filter (λ x, x = o) l) = 1%nat.
Proof.
  induction 1 as [|x l Hx Hnd IH]; intros Ho; [by apply elem_of_nil in Ho|].
  rewrite filter_cons. apply elem_of_cons in Ho as [->|Ho].
  - rewrite decide_True by done. simpl. f_equal.
    destruct (filter (λ y, y = x) l) as [|y k] eqn:Hf; [done|].
    assert (y ∈ filter (λ y, y = x) l) as Hy by (rewrite Hf; constructor).
    apply list_elem_of_filter in Hy as [-> Hy]. done.
  - rewrite decide_False by (intros ->; done). by apply IH.
Qed.

(** ** The processes and the data flow *)

Lemma for_range_ext {St : Type} (lo hi : Z) (f g : Z → St → St) (s : St) :
  (∀ i s, lo ≤ i < hi → f i s = g i s) →
  for_range lo hi f s = for_range lo hi g s.
Proof.
  intros H. destruct (Z.le_gt_cases hi lo) as [Hle|Hlt].
  { by rewrite !for_range_empty. }
  apply (for_range_ind (λ k s', s' = for_range lo k g s)); [lia| |].
  - by rewrite for_range_empty.
  - intros i s' Hi ->. rewrite for_range_last by lia. by apply H.
Qed.

Lemma gather_counts_ext (f g : Z → Z) (p : Z) (recvbuf : gmap Z Z) :
  (∀ i, 0 ≤ i < p → f i = g i) →
  gather_counts f p recvbuf = gather_counts g p recvbuf.
Proof.
  intros H. unfold gather_counts. apply for_range_ext.
  intros i b Hi. by rewrite H.
Qed.

Lemma gatherv_blocks_ext (f g : Z → gmap Z Z) (recvcounts displs : gmap Z Z)
    (p : Z) (recvbuf : gmap Z Z) :
  (∀ i, 0 ≤ i < p → f i = g i) →
  gatherv_blocks f recvcounts displs p recvbuf
  = gatherv_blocks g recvcounts displs p recvbuf.
Proof.
  intros H. unfold gatherv_blocks. apply for_range_ext.
  intros i b Hi. by rewrite H.
Qed.

(** The matcher only reads the first [pattern_size] bytes of the pattern. *)
Lemma compare_from_ext (fuel : nat) (file pattern pattern' : list byte)
    (i j pattern_size : Z) (ncmp : nat) :
  0 ≤ j →
  (∀ k, 0 ≤ k < pattern_size →
     pattern !!! Z.to_nat k = pattern' !!! Z.to_nat k) →
  compare_from fuel file pattern i j pattern_size ncmp
  = compare_from fuel file pattern' i j pattern_size ncmp.
Proof.
  intros Hj H. revert j ncmp Hj.
  induction fuel as [|fuel IH]; intros j ncmp Hj; simpl; [done|].
  destruct (Z.ltb_spec j pattern_size) as [Hlt|Hge]; [|done].
  rewrite H by lia. destruct (negb _); [done|]. apply IH. lia.
Qed.

Lemma find_string_pattern_ext (file pattern pattern' : list byte)
    (file_size pattern_size displacment id : Z) (st : matcher) :
  (∀ k, 0 ≤ k < pattern_size →
     pattern !!! Z.to_nat k = pattern' !!! Z.to_nat k) →
  find_string file pattern file_size pattern_size displacment id st
  = find_string file pattern' file_size pattern_size displacment id st.
Proof.
  intros H. unfold find_string. apply for_range_ext.
  intros i s Hi. unfold find_body.
  by rewrite (compare_from_ext _ file pattern pattern').
Qed.

Lemma bcast_ints_lookup (root_buffer buffer : gmap Z Z) (count i : Z) :
  0 ≤ i < count → bcast_ints root_buffer count buffer !!! i = root_buffer !!! i.
Proof.
  intros Hi. unfold bcast_ints.
  assert (0 ≤ count) as Hcount by lia. revert i Hi.
  apply (for_range_ind
    (λ k (b : gmap Z Z), ∀ i, 0 ≤ i < k → b !!! i = root_buffer !!! i));
    [lia| |].
  - intros; lia.
  - intros k b Hk IH i Hi. destruct (decide (i = k)) as [->|Hne].
    + by rewrite lookup_total_insert_eq.
    + rewrite lookup_total_insert_ne by done. apply IH. lia.
Qed.

(** The value of the broadcast variable as an [int] is the root's. *)
Lemma to_int_bcast_int_into_size_t (root_variable variable : Z) :
  to_int (bcast_int_into_size_t root_variable variable) = to_int root_variable.
Proof.
  unfold to_int, bcast_int_into_size_t. f_equal.
  pose proof (Z.div_mod variable (2 ^ 32) ltac:(lia)) as Hv.
  pose proof (Z.div_mod root_variable (2 ^ 32) ltac:(lia)) as Hr.
  replace (variable - variable mod 2 ^ 32 + root_variable mod 2 ^ 32 + 2 ^ 31)
    with (root_variable + 2 ^ 31
          + (variable / 2 ^ 32 - root_variable / 2 ^ 32) * 2 ^ 32) by lia.
  apply Z.mod_add. lia.
Qed.

Lemma strncpy_all (src : list byte) :
  strncpy src (Z.of_nat (length src)) = src.
Proof.
  unfold strncpy. rewrite Nat2Z.id, firstn_all, Nat.sub_diag. simpl.
  apply app_nil_r.
Qed.

Lemma bcast_chars_lookup (root_buffer buffer : list byte) (count k : Z) :
  0 ≤ k < count → count ≤ Z.of_nat (length root_buffer) →
  bcast_chars root_buffer count buffer !!! Z.to_nat k
  = root_buffer !!! Z.to_nat k.
Proof.
  intros Hk Hc. unfold bcast_chars.
  rewrite lookup_total_app_l by (rewrite length_take; lia).
  apply lookup_total_take_lt. lia.
Qed.

Section Group.

Context {A : Type}.
Variable beyond : Z → byte.
Variable p : Z.
Hypothesis Hp : 1 ≤ p.

Lemma root_in_group : ROOT ∈ seqZ 0 p.
Proof. apply elem_of_seqZ. unfold ROOT. lia. Qed.

Lemma aborting_ext (r r' : Z → proc A) :
  (∀ id, 0 ≤ id < p → r id = r' id) → aborting p r = aborting p r'.
Proof.
  intros H. unfold aborting.
  assert (∀ id, id ∈ seqZ 0 p → r id = r' id) as Hin
    by (intros id Hid%elem_of_seqZ; apply H; lia).
  induction (seqZ 0 p) as [|id l IH]; simpl; [done|].
  rewrite Hin by constructor. rewrite IH; [done|].
  intros; apply Hin. by constructor.
Qed.

Lemma exits_ext (r r' : Z → proc A) :
  (∀ id, 0 ≤ id < p → r id = r' id) → exits p r = exits p r'.
Proof.
  intros H. unfold exits. apply Forall_mapM_ext, Forall_forall.
  intros id Hid%elem_of_seqZ. rewrite H by lia. done.
Qed.

Lemma same_call_ext (r r' : Z → proc A) :
  (∀ id, 0 ≤ id < p → r id = r' id) → same_call p r = same_call p r'.
Proof.
  intros H. unfold same_call. apply forallb_ext_in.
  intros id Hid%elem_of_seqZ. rewrite !H by (unfold ROOT; lia). done.
Qed.

Lemma deliver_ext (r r' : Z → proc A) (id : Z) :
  (∀ id, 0 ≤ id < p → r id = r' id) → 0 ≤ id < p →
  deliver beyond p r id = deliver beyond p r' id.
Proof.
  intros H Hid. unfold deliver.
  rewrite (H ROOT) by (unfold ROOT; lia). rewrite (H id) by done.
  destruct (r' ROOT), (r' id); try reflexivity; f_equal;
    destruct (id =? ROOT); try reflexivity.
  - apply gather_counts_ext. intros i Hi. by rewrite H.
  - apply gatherv_blocks_ext. intros i Hi. by rewrite H.
Qed.

Lemma run_group_ext (fuel : nat) (r r' : Z → proc A) :
  (∀ id, 0 ≤ id < p → r id = r' id) →
  run_group beyond fuel p r = run_group beyond fuel p r'.
Proof.
  revert r r'. induction fuel as [|fuel IH]; intros r r' H; simpl;
    rewrite (aborting_ext r r'), (exits_ext r r') by done; [done|].
  rewrite (same_call_ext r r') by done.
  destruct (aborting p r'), (exits p r'), (same_call p r'); try done.
  apply IH. intros id Hid. by apply deliver_ext.
Qed.

(** No rank has aborted or returned when they are all in a collective
    call. *)
Lemma aborting_none (r : Z → proc A) (c : call) :
  (∀ id, 0 ≤ id < p → next_call (r id) = Some c) → aborting p r = None.
Proof.
  intros H. unfold aborting.
  assert (∀ id, id ∈ seqZ 0 p → next_call (r id) = Some c) as Hin
    by (intros id Hid%elem_of_seqZ; apply H; lia).
  induction (seqZ 0 p) as [|id l IH]; simpl; [done|].
  pose proof (Hin id ltac:(constructor)) as Hc.
  rewrite IH by (intros; apply Hin; by constructor).
  by destruct (r id).
Qed.

Lemma exits_none (r : Z → proc A) (c : call) :
  (∀ id, 0 ≤ id < p → next_call (r id) = Some c) → exits p r = None.
Proof.
  intros H. unfold exits. apply mapM_None_2, Exists_exists.
  exists ROOT. split; [apply root_in_group|].
  pose proof (H ROOT ltac:(unfold ROOT; lia)) as Hc.
  by destruct (r ROOT).
Qed.

Lemma same_call_true (r : Z → proc A) (c : call) :
  (∀ id, 0 ≤ id < p → next_call (r id) = Some c) → same_call p r = true.
Proof.
  intros H. unfold same_call. apply forallb_forall.
  intros id Hid%list_elem_of_In%elem_of_seqZ.
  apply bool_decide_eq_true. rewrite !H by (unfold ROOT; lia). done.
Qed.

(** The ranks that are all in the call [c] go through it together. *)
Lemma run_group_call (fuel : nat) (r : Z → proc A) (c : call) :
  (∀ id, 0 ≤ id < p → next_call (r id) = Some c) →
  run_group beyond (S fuel) p r = run_group beyond fuel p (deliver beyond p r).
Proof.
  intros H. simpl.
  by rewrite (aborting_none r c), (exits_none r c), (same_call_true r c).
Qed.

(** The run is over when all the ranks have returned. *)
Lemma run_group_returned (fuel : nat) (r : Z → proc A) (a : Z → A) :
  (∀ id, 0 ≤ id < p → r id = Return (a id)) →
  run_group beyond fuel p r = Completed (a <$> seqZ 0 p).
Proof.
  intros H.
  assert (aborting p r = None) as Hab.
  { unfold aborting.
    assert (∀ id, id ∈ seqZ 0 p → r id = Return (a id)) as Hin
      by (intros id Hid%elem_of_seqZ; apply H; lia).
    induction (seqZ 0 p) as [|id l IH]; simpl; [done|].
    rewrite Hin by constructor. apply IH. intros; apply Hin. by constructor. }
  assert (exits p r = Some (a <$> seqZ 0 p)) as Hex.
  { unfold exits. apply mapM_Some_2, Forall2_fmap_r, Forall_Forall2_diag.
    apply Forall_forall. intros id Hid%elem_of_seqZ. by rewrite H by lia. }
  destruct fuel; simpl; by rewrite Hab, Hex.
Qed.

(** A rank that calls [MPI_Abort] before the others have returned ends the
    run. *)
Lemma run_group_root_aborts (fuel : nat) (r : Z → proc A) (msg : string) :
  r ROOT = MPI_Abort msg → run_group beyond fuel p r = Killed msg.
Proof.
  intros H.
  assert (aborting p r = Some msg) as Hab.
  { unfold aborting. rewrite seqZ_cons by lia. simpl.
    change 0 with ROOT. by rewrite H. }
  destruct fuel; simpl; by rewrite Hab.
Qed.

End Group.

Lemma concat_nils (f : Z → list Z) (l : list Z) :
  (∀ id, id ∈ l → f id = []) → concat (f <$> l) = [].
Proof.
  induction l as [|id l IH]; intros H; [done|].
  rewrite fmap_cons. simpl. rewrite H by constructor. apply IH.
  intros; apply H. by constructor.
Qed.

Lemma concat_root_only (p : Z) (f : Z → list Z) :
  1 ≤ p → (∀ id, 0 < id < p → f id = []) →
  concat (f <$> seqZ 0 p) = f ROOT.
Proof.
  intros Hp H. rewrite seqZ_cons by lia. rewrite fmap_cons. simpl.
  rewrite concat_nils; [apply app_nil_r|].
  intros id Hid%elem_of_seqZ. apply H. lia.
Qed.

(** What a rank of the group finds is what the data flow gives it: the
    copies of the tables agree with the root's on the cells of the ranks,
    the pattern received agrees with the root's on its [pattern_size] bytes
    and [pattern_size] with the root's as an [int]. *)
Lemma rank_search (beyond : Z → byte) (pattern file : list byte)
    (distribute displs : gmap Z Z) (garbage p i : Z) :
  0 ≤ i < p → Z.of_nat (length pattern) ≤ INT_MAX →
  find_string
    (scatterv_block beyond file distribute displs i)
    (if i =? ROOT
     then strncpy pattern
            (if i =? ROOT then Z.of_nat (length pattern) else garbage)
     else bcast_chars (strncpy pattern (Z.of_nat (length pattern)))
            (to_int (Z.of_nat (length pattern)))
            (strncpy pattern
               (if i =? ROOT then Z.of_nat (length pattern) else garbage)))
    ((if i =? ROOT
      then if i =? ROOT then distribute else ∅
      else bcast_ints distribute p (if i =? ROOT then distribute else ∅))
     !!! i)
    (to_int
       (if i =? ROOT
        then if i =? ROOT then Z.of_nat (length pattern) else garbage
        else bcast_int_into_size_t (Z.of_nat (length pattern))
               (if i =? ROOT then Z.of_nat (length pattern) else garbage)))
    ((if i =? ROOT
      then if i =? ROOT then displs else ∅
      else bcast_ints displs p (if i =? ROOT then displs else ∅))
     !!! i)
    i {| found := ∅; count := 0; compared := O |}
  = worker beyond file pattern distribute displs
           (Z.of_nat (length pattern)) i.
Proof.
  intros Hi Hm. unfold worker.
  destruct (Z.eqb_spec i ROOT) as [->|Hne].
  - by rewrite strncpy_all.
  - rewrite !bcast_ints_lookup by done.
    rewrite to_int_bcast_int_into_size_t.
    apply find_string_pattern_ext. intros k Hk.
    rewrite to_int_small in Hk by lia.
    rewrite strncpy_all, to_int_small by lia.
    apply bcast_chars_lookup; lia.
Qed.

Lemma mpirun_kernel (beyond : Z → byte) (garbage : Z → Z)
    (pattern file : list byte) (p : Z) :
  1 ≤ p → Z.of_nat (length pattern) ≤ INT_MAX →
  mpirun beyond garbage pattern file p = kernel beyond pattern file p.
Proof.
  intros Hp Hm. unfold mpirun, processes, kernel.
  set (file_size := Z.of_nat (length file)).
  set (m := Z.of_nat (length pattern)) in *.
  destruct (to_size_t (file_size - 1) <? m) eqn:Hcheck.
  - rewrite (run_group_root_aborts beyond p Hp 8%nat _ SizeError); [done|].
    unfold main, root_block. fold file_size m. change (ROOT =? ROOT) with true.
    cbv iota. by rewrite Hcheck.
  - rewrite (run_group_ext beyond p Hp 8%nat _
      (λ id, main_body pattern
               (if id =? ROOT then file else [])
               (if id =? ROOT then m else garbage id)
               (if id =? ROOT then root_distribute file_size m p else ∅)
               (if id =? ROOT then root_displs file_size m p else ∅) p id)).
    2: { intros id Hid. unfold main, root_block. fold file_size m.
         rewrite Hcheck. by destruct (id =? ROOT). }
    unfold main_body.
    do 8 (erewrite (run_group_call beyond p Hp) by (intros; reflexivity);
          unfold deliver; cbv beta iota zeta).
    erewrite (run_group_returned beyond p) by (intros; reflexivity).
    rewrite <- list_fmap_compose.
    rewrite concat_root_only; [|done|].
    2: { intros id Hid. unfold compose. cbn [v_printed].
         destruct (Z.eqb_spec id ROOT) as [->|_]; [unfold ROOT in Hid; lia|done]. }
    unfold compose. cbn [v_printed].
    change (ROOT =? ROOT) with true. cbv iota.
    unfold sent_buffer, sent_value. cbv beta iota.
    subst m file_size.
    rewrite (gather_counts_ext _
      (λ id, count (worker beyond file pattern
                      (root_distribute (Z.of_nat (length file))
                         (Z.of_nat (length pattern)) p)
                      (root_displs (Z.of_nat (length file))
                         (Z.of_nat (length pattern)) p)
                      (Z.of_nat (length pattern)) id)))
      by (intros i Hi; f_equal; by apply rank_search).
    rewrite (gatherv_blocks_ext _
      (λ id, found (worker beyond file pattern
                      (root_distribute (Z.of_nat (length file))
                         (Z.of_nat (length pattern)) p)
                      (root_displs (Z.of_nat (length file))
                         (Z.of_nat (length pattern)) p)
                      (Z.of_nat (length pattern)) id)))
      by (intros i Hi; f_equal; by apply rank_search).
    reflexivity.
Qed.

(** ** What the ranks hold when they leave *)


(** ** The run on a corpus *)

(** The output of a run on a file made of a corpus [C] and a last byte
    [s]. *)
Lemma mpirun_corpus (beyond : Z → byte) (garbage : Z → Z) (C P : list byte)
    (s : byte) (N : Z) :
  1 ≤ Z.of_nat (length P) ≤ Z.of_nat (length C) → 1 ≤ N →
  Z.of_nat (length C) + 1 + Z.of_nat (length P) ≤ INT_MAX →
  mpirun beyond garbage P (C ++ [s]) N
  = Finished
      (filter (λ o, occurs_in (read_buffer beyond (C ++ [s])) P o = true)
         (seqZ 0 (scanned (Z.of_nat (length C)) (Z.of_nat (length P)) N))).
Proof.
  intros HP HN Hfit. rewrite mpirun_kernel by lia.
  assert (Z.of_nat (length (C ++ [s])) = Z.of_nat (length C) + 1) as Hlen
    by (rewrite length_app; simpl; lia).
  rewrite kernel_spec by lia.
  rewrite Hlen. by replace (Z.of_nat (length C) + 1 - 1)
    with (Z.of_nat (length C)) by lia.
Qed.

Lemma scanned_corpus (C P : list byte) (N : Z) :
  1 ≤ Z.of_nat (length P) ≤ Z.of_nat (length C) → 1 ≤ N →
  Z.of_nat (length C) - Z.of_nat (length P) + 1
  ≤ scanned (Z.of_nat (length C)) (Z.of_nat (length P)) N
  ≤ Z.of_nat (length C).
Proof.
  intros HP HN. unfold scanned.
  pose proof (spec_offset_bounds (Z.of_nat (length C)) N ltac:(lia) HN
                (N - 1) ltac:(lia)). lia.
Qed.

(** The last byte of the file is not part of what is searched: if the five
    bytes ["aaaaa"] are the whole file, the occurrence at offset 3 is not
    printed. *)
Lemma last_byte_not_searched (beyond : Z → byte) (garbage : Z → Z) :
  mpirun beyond garbage (bytes "aa") (bytes "aaaaa") 2 = Finished [0; 1; 2] ∧
  mpirun beyond garbage (bytes "aa") (bytes "aaaaa") 1 = Finished [0; 1; 2].
Proof.
  rewrite !mpirun_kernel by (simpl; unfold INT_MAX; lia).
  split; vm_compute; reflexivity.
Qed.



(** X17: for a file made of a corpus and a last byte the run aborts with
    the size error exactly when the pattern is longer than the corpus. *)
Lemma size_error_iff_pattern_longer (beyond : Z → byte) (garbage : Z → Z)
    (C P : list byte) (s : byte) (N : Z) :
  1 ≤ N → Z.of_nat (length P) ≤ INT_MAX →
  Z.of_nat (length (C ++ [s])) ≤ INTMAX_MAX →
  mpirun beyond garbage P (C ++ [s]) N = Aborted SizeError
  ↔ Z.of_nat (length C) < Z.of_nat (length P).
Proof.
  intros HN HP Hmax. unfold INTMAX_MAX in Hmax.
  rewrite length_app in Hmax. simpl in Hmax.
  rewrite mpirun_kernel by done.
  unfold kernel. rewrite length_app. change (length [s]) with 1%nat.
  replace (Z.of_nat (length C + 1) - 1) with (Z.of_nat (length C)) by lia.
  rewrite to_size_t_small by lia.
  destruct (Z.ltb_spec (Z.of_nat (length C)) (Z.of_nat (length P))).
  - split; [intros; lia|done].
  - split; [done|intros; lia].
Qed.

Lemma size_error_iff_pattern_longer_witness :
  mpirun (λ _, x00) (λ _, 0) (bytes "abcde") (bytes "abcd" ++ [x00]) 2
    = Aborted SizeError
  ↔ Z.of_nat (length (bytes "abcd")) < Z.of_nat (length (bytes "abcde")).
Proof.
  apply (size_error_iff_pattern_longer (λ _, x00) (λ _, 0) (bytes "abcd")
           (bytes "abcde") x00 2).
  - lia.
  - simpl. unfold INT_MAX. lia.
  - simpl. unfold INTMAX_MAX. lia.
Defined.

(** ** Order of the offsets *)

Lemma seqZ_ascending (d n : Z) : StronglySorted Z.lt (seqZ d n).
Proof.
  destruct (Z.le_gt_cases n 0) as [Hn|Hn].
  { rewrite seqZ_nil by lia. constructor. }
  assert (∀ (k : nat) d, StronglySorted Z.lt (seqZ d (Z.of_nat k))) as Hk.
  { clear. induction k as [|k IH]; intros d.
    - rewrite seqZ_nil by lia. constructor.
    - rewrite seqZ_cons by lia.
      replace (Z.pred (Z.of_nat (S k))) with (Z.of_nat k) by lia.
      constructor; [apply IH|].
      apply Forall_forall. intros x Hx%elem_of_seqZ. lia. }
  specialize (Hk (Z.to_nat n) d). by rewrite Z2Nat.id in Hk by lia.
Qed.

Lemma filter_ascending (P : Z → Prop) `{!∀ x, Decision (P x)} (l : list Z) :
  StronglySorted Z.lt l → StronglySorted Z.lt (filter P l).
Proof.
  induction 1 as [|x l Hl IH Hx]; [constructor|].
  rewrite filter_cons. case_decide; [|done].
  constructor; [done|].
  apply Forall_forall. intros y [_ Hy]%list_elem_of_filter.
  by apply (proj1 (Forall_forall _ _) Hx).
Qed.

(** The offsets found by one worker are stored in ascending order. *)
Lemma worker_found_ascending (beyond : Z → byte) (pattern file : list byte)
    (p i : Z) :
  1 ≤ Z.of_nat (length pattern) ≤ Z.of_nat (length file) - 1 → 1 ≤ p →
  Z.of_nat (length file) + Z.of_nat (length pattern) ≤ INT_MAX →
  0 ≤ i < p →
  let w := worker beyond file pattern
             (root_distribute (Z.of_nat (length file))
                (Z.of_nat (length pattern)) p)
             (root_displs (Z.of_nat (length file))
                (Z.of_nat (length pattern)) p)
             (Z.of_nat (length pattern)) i in
  StronglySorted Z.lt (cells (found w) (count w)).
Proof.
  intros HP Hp Hfit Hi.
  destruct (worker_spec beyond pattern file p) with (i := i) as [_ Hcells];
    [lia..|].
  cbv zeta. rewrite Hcells. apply filter_ascending, seqZ_ascending.
Qed.

(** Where [found] has room for every store, the offsets printed by a run
    are in strictly ascending order, whatever the number of workers. *)
Lemma output_ascending (beyond : Z → byte) (garbage : Z → Z)
    (pattern file : list byte) (p : Z) :
  1 ≤ Z.of_nat (length pattern) ≤ Z.of_nat (length file) - 1 → 1 ≤ p →
  Z.of_nat (length file) + Z.of_nat (length pattern) ≤ INT_MAX →
  ∃ GlobalResult,
    mpirun beyond garbage pattern file p = Finished GlobalResult ∧
    StronglySorted Z.lt GlobalResult.
Proof.
  intros HP Hp Hfit. eexists.
  split; [rewrite mpirun_kernel by lia; apply kernel_spec; lia|].
  apply filter_ascending, seqZ_ascending.
Qed.

(** ** Bounds *)

(** X20: the matcher records at most one match per position it looks at,
    that is at most [file_size - pattern_size + 1] matches: an array
    [found] of that many elements holds them. *)
Lemma matches_at_most_positions (file pattern : list byte)
    (file_size pattern_size displacment id : Z) :
  1 ≤ pattern_size ≤ file_size → file_size ≤ INT_MAX →
  0 ≤ count (find_string file pattern file_size pattern_size displacment id
               {| found := ∅; count := 0; compared := O |})
    ≤ file_size - pattern_size + 1.
Proof.
  intros Hps Hfs.
  destruct (find_string_spec file pattern file_size pattern_size displacment
              id ∅ O) as [Hc _]; [lia..|].
  rewrite Hc.
  pose proof (length_hits file pattern pattern_size
                (file_size - pattern_size + 1) ltac:(lia)). lia.
Qed.

Lemma matches_at_most_positions_witness :
  0 ≤ count (find_string (bytes "aaaa") (bytes "aa") 4 2 0 0
               {| found := ∅; count := 0; compared := O |})
    ≤ 4 - 2 + 1.
Proof.
  apply (matches_at_most_positions (bytes "aaaa") (bytes "aa") 4 2 0 0).
  - lia.
  - unfold INT_MAX. lia.
Defined.

(** On the corpus ["aaaaa"] with the pattern ["aa"] and two workers, worker 0
    records three matches in an array [found] declared with two elements. *)
Lemma scenario_aaaaa_found_capacity (beyond : Z → byte) (s : byte) :
  let distribute := root_distribute 6 2 2 in
  let w := worker beyond (bytes "aaaaa" ++ [s]) (bytes "aa") distribute
                  (root_displs 6 2 2) 2 0 in
  found_capacity distribute 2 0 = 2 ∧ count w = 3.
Proof. vm_compute. split; reflexivity. Qed.

(** X18: what the partition tables guarantee on the blocks of the
    scatter: the blocks start inside the corpus, in the order of the
    ranks, the last one ends with the corpus, and a block goes at most
    [m - 1] bytes past the end of the corpus. *)
Lemma scatter_blocks (file_size m p : Z) :
  1 ≤ m → 1 ≤ file_size → 1 ≤ p → file_size + m ≤ INT_MAX →
  let distribute := root_distribute file_size m p in
  let displs := root_displs file_size m p in
  (∀ i, 0 ≤ i < p → 0 ≤ displs !!! i ≤ file_size - 1) ∧
  (∀ i, 0 ≤ i < p - 1 → displs !!! i ≤ displs !!! (i + 1)) ∧
  displs !!! (p - 1) + distribute !!! (p - 1) = file_size - 1 ∧
  (∀ i, 0 ≤ i < p →
     0 ≤ distribute !!! i ∧
     displs !!! i + distribute !!! i ≤ file_size - 1 + (m - 1)).
Proof.
  intros Hm Hfs Hp Hfit distribute displs.
  set (L := file_size - 1).
  assert (0 ≤ L ∧ L + m ≤ INT_MAX) as [HL HLm] by (unfold L; lia).
  assert (∀ i, 0 ≤ i < p → distribute !!! i = spec_size L m p i) as Hsize
    by (intros; by apply distribute_file_lookup).
  assert (∀ i, 0 ≤ i < p → displs !!! i = spec_offset L p i) as Hoffset
    by (intros; by apply (displacment_lookup L m p)).
  assert (∀ i, 0 ≤ i < p →
    spec_offset L p i + spec_share L p i ≤ L ∧ 0 ≤ spec_share L p i) as Hend.
  { intros i Hi. rewrite <- spec_offset_succ by lia.
    pose proof (spec_offset_bounds L p HL Hp (i + 1) ltac:(lia)).
    pose proof (spec_share_bounds L p HL Hp i). lia. }
  split; [|split; [|split]].
  - intros i Hi. rewrite Hoffset by done. apply spec_offset_bounds; lia.
  - intros i Hi. rewrite !Hoffset by lia. apply spec_offset_mono; lia.
  - rewrite Hoffset, Hsize by lia. unfold spec_size.
    destruct (Z.ltb_spec (p - 1) (p - 1)); [lia|].
    rewrite Z.add_0_r, <- spec_offset_succ by lia.
    replace (p - 1 + 1) with p by lia. by apply spec_offset_total.
  - intros i Hi. rewrite Hoffset, Hsize by done.
    destruct (Hend i Hi). unfold spec_size.
    destruct (i <? p - 1); lia.
Qed.

Lemma scatter_blocks_witness :
  let distribute := root_distribute 12 3 4 in
  let displs := root_displs 12 3 4 in
  (∀ i, 0 ≤ i < 4 → 0 ≤ displs !!! i ≤ 12 - 1) ∧
  (∀ i, 0 ≤ i < 4 - 1 → displs !!! i ≤ displs !!! (i + 1)) ∧
  displs !!! (4 - 1) + distribute !!! (4 - 1) = 12 - 1 ∧
  (∀ i, 0 ≤ i < 4 →
     0 ≤ distribute !!! i ∧
     displs !!! i + distribute !!! i ≤ 12 - 1 + (3 - 1)).
Proof.
  apply (scatter_blocks 12 3 4); unfold INT_MAX; lia.
Defined.

(** X19: when the share of the last worker holds the overlap, that is
    when [m - 1 ≤ (file_size - 1) / p], every block of the scatter lies
    inside the corpus: the last byte of the file is sent to no worker. *)
Lemma scatter_blocks_in_corpus (file_size m p i : Z) :
  1 ≤ m → 1 ≤ file_size → 1 ≤ p → file_size + m ≤ INT_MAX →
  m - 1 ≤ (file_size - 1) / p → 0 ≤ i < p →
  root_displs file_size m p !!! i + root_distribute file_size m p !!! i
  ≤ file_size - 1.
Proof.
  intros Hm Hfs Hp Hfit Hshare Hi.
  set (L := file_size - 1) in *.
  assert (0 ≤ L ∧ L + m ≤ INT_MAX) as [HL HLm] by (unfold L; lia).
  unfold root_displs, root_distribute. fold L.
  rewrite (displacment_lookup L m p) by
    (done || intros; by apply distribute_file_lookup).
  rewrite distribute_file_lookup by done.
  unfold spec_size. destruct (Z.ltb_spec i (p - 1)) as [Hlt|Hge].
  - rewrite Z.add_assoc, <- spec_offset_succ by lia.
    pose proof (spec_offset_mono L p HL Hp (i + 1) (p - 1)
                  ltac:(lia)) as Hmono.
    pose proof (spec_offset_succ L p (p - 1) ltac:(lia)) as Hlast.
    replace (p - 1 + 1) with p in Hlast by lia.
    rewrite spec_offset_total in Hlast by lia.
    assert (L / p ≤ spec_share L p (p - 1))
      by (unfold spec_share; destruct (_ <? _); lia).
    lia.
  - replace i with (p - 1) by lia.
    rewrite Z.add_0_r, <- spec_offset_succ by lia.
    replace (p - 1 + 1) with p by lia. by rewrite spec_offset_total by lia.
Qed.

Lemma scatter_blocks_in_corpus_witness :
  root_displs 12 3 4 !!! 1 + root_distribute 12 3 4 !!! 1 ≤ 12 - 1.
Proof.
  apply (scatter_blocks_in_corpus 12 3 4 1).
  - lia.
  - lia.
  - lia.
  - unfold INT_MAX. lia.
  - vm_compute. discriminate.
  - lia.
Defined.

(** Where [found] has room for every store, every offset printed lies in
    the corpus and is an occurrence in the root's memory, whatever the
    number of workers; it is an occurrence in the corpus as soon as it
    leaves room for the pattern before the end of the corpus. *)
Lemma reported_offset_occurs (beyond : Z → byte) (garbage : Z → Z)
    (C P : list byte) (s : byte) (N : Z) (GlobalResult : list Z) (o : Z) :
  1 ≤ Z.of_nat (length P) ≤ Z.of_nat (length C) → 1 ≤ N →
  Z.of_nat (length C) + 1 + Z.of_nat (length P) ≤ INT_MAX →
  mpirun beyond garbage P (C ++ [s]) N = Finished GlobalResult →
  o ∈ GlobalResult →
  0 ≤ o < Z.of_nat (length C) ∧
  occurs_in (read_buffer beyond (C ++ [s])) P o = true ∧
  (o + Z.of_nat (length P) ≤ Z.of_nat (length C) → occurrence C P o).
Proof.
  intros HP HN Hfit Hmain Ho.
  rewrite mpirun_corpus in Hmain by lia. injection Hmain as <-.
  apply list_elem_of_filter in Ho as [Hocc Ho%elem_of_seqZ].
  pose proof (scanned_corpus C P N HP HN) as Hsc.
  split; [lia|]. split; [done|].
  intros Hroom. apply (occurs_in_occurrence beyond C P s o); [lia|lia|done].
Qed.

(** With a file of 5 bytes, a pattern of 4 bytes and four workers the block
    of worker 2 goes past the end of the file buffer. *)
Lemma scatter_reads_past_buffer (beyond : Z → byte) (s : byte) :
  let distribute := root_distribute 5 4 4 in
  let displs := root_displs 5 4 4 in
  displs !!! 2 + distribute !!! 2 = 6 ∧
  scatterv_block beyond (bytes "abcd" ++ [s]) distribute displs 2
  = ["c"%byte; "d"%byte; s; beyond 5].
Proof. vm_compute. split; reflexivity. Qed.

(** With a file of the 5 bytes ["aaaaa"], the pattern ["aaaa"] and four
    workers, the block of worker 2 ends one byte past the file buffer; if
    that byte is an ['a'] the offset 2 is printed, where only three bytes
    of the file are left. *)
Lemma reported_offset_outside_file (garbage : Z → Z) :
  mpirun (λ _, "a"%byte) garbage (bytes "aaaa") (bytes "aaaa" ++ ["a"%byte]) 4
  = Finished [0; 1; 2].
Proof.
  rewrite mpirun_kernel by (simpl; unfold INT_MAX; lia).
  vm_compute. reflexivity.
Qed.

(** ** The matcher on any result buffer *)

(** [find_string] entered with any value behind [count]: it appends. *)
Lemma find_string_from (file pattern : list byte)
    (file_size pattern_size displacment id : Z) (st : matcher) :
  0 ≤ pattern_size ≤ INT_MAX → 0 ≤ file_size ≤ INT_MAX →
  0 ≤ count st → count st + (file_size - pattern_size + 1) ≤ INT_MAX →
  let st' :=
    find_string file pattern file_size pattern_size displacment id st in
  let found_at :=
    hits file pattern pattern_size (file_size - pattern_size + 1) in
  count st' = count st + Z.of_nat (length found_at) ∧
  cells (found st') (count st')
    = cells (found st) (count st)
        ++ ((λ i, to_int (i + displacment)) <$> found_at) ∧
  ∀ k, k < count st ∨ count st' ≤ k → found st' !! k = found st !! k.
Proof.
  intros Hps Hfs Hc0 Hroom. cbv zeta. unfold find_string.
  assert (file_size < 2 ^ 31 ∧ pattern_size < 2 ^ 31) as Hfs'
    by (unfold INT_MAX in *; lia).
  rewrite to_int_id by lia.
  destruct (Z.le_gt_cases 0 (file_size - pattern_size + 1)) as [Hle|Hgt].
  - apply (for_range_ind
      (λ k st',
         count st' = count st
                     + Z.of_nat (length (hits file pattern pattern_size k)) ∧
         cells (found st') (count st')
           = cells (found st) (count st)
               ++ ((λ i, to_int (i + displacment))
                     <$> hits file pattern pattern_size k) ∧
         ∀ j, j < count st ∨ count st' ≤ j →
              found st' !! j = found st !! j)); [lia| |].
    + cbv beta. unfold hits. rewrite seqZ_nil by lia. simpl.
      rewrite app_nil_r. split; [lia|]. done.
    + intros k s Hk (Hc & Hf & Hfr).
      destruct (find_body_spec file pattern pattern_size displacment k s
                  ltac:(lia)) as [-> ->].
      rewrite hits_snoc by lia.
      pose proof (length_hits file pattern pattern_size k ltac:(lia)) as Hlen.
      destruct (occurs_at file pattern pattern_size k).
      * rewrite to_int_id by (unfold INT_MAX in *; lia).
        rewrite length_app, fmap_app. simpl.
        split; [lia|]. split.
        -- rewrite cells_snoc by lia. rewrite lookup_total_insert_eq.
           rewrite cells_insert_above by lia. rewrite Hf.
           by rewrite <- app_assoc.
        -- intros j Hj. rewrite lookup_insert_ne by lia. apply Hfr. lia.
      * rewrite app_nil_r. done.
  - rewrite for_range_empty by lia.
    unfold hits. rewrite seqZ_nil by lia. simpl.
    rewrite app_nil_r. split; [lia|]. done.
Qed.

(** The comparison of the matcher, on buffers that hold the bytes it
    reads, is the equality of the pattern with the bytes of the file. *)
Lemma occurs_at_occurrence (file pattern : list byte) (i : Z) :
  0 ≤ i → i + Z.of_nat (length pattern) ≤ Z.of_nat (length file) →
  occurs_at file pattern (Z.of_nat (length pattern)) i = true
  ↔ occurrence file pattern i.
Proof.
  intros Hi Hfit. unfold occurs_at, occurrence.
  rewrite forallb_forall. split.
  - intros H. split; [done|].
    apply (list_eq_same_length _ _ (length pattern)); [done| |].
    { rewrite length_take, length_drop. lia. }
    intros k x y Hk Hx Hy.
    rewrite lookup_take_lt, lookup_drop in Hx by done.
    specialize (H (Z.of_nat k)).
    rewrite <- list_elem_of_In, elem_of_seqZ in H.
    specialize (H ltac:(lia)). apply byte_dec_bl in H.
    rewrite Nat2Z.id in H.
    replace (Z.to_nat (i + Z.of_nat k)) with (Z.to_nat i + k)%nat in H by lia.
    rewrite !list_lookup_total_alt, Hx, Hy in H. simpl in H. congruence.
  - intros [_ Heq] j Hj. rewrite <- list_elem_of_In, elem_of_seqZ in Hj.
    apply byte_dec_lb.
    assert (pattern !! Z.to_nat j = file !! (Z.to_nat i + Z.to_nat j)%nat)
      as HP.
    { rewrite <- Heq at 1. rewrite lookup_take_lt, lookup_drop by lia. done. }
    replace (Z.to_nat (i + j)) with (Z.to_nat i + Z.to_nat j)%nat by lia.
    by rewrite !list_lookup_total_alt, HP.
Qed.

(** The inner loop reads the file at the indices [i + j .. i +
    pattern_size - 1] at most. *)
Lemma compare_from_file_ext (fuel : nat) (file file' pattern : list byte)
    (i j pattern_size : Z) (ncmp : nat) :
  (∀ k, j ≤ k < pattern_size →
     file !!! Z.to_nat (i + k) = file' !!! Z.to_nat (i + k)) →
  compare_from fuel file pattern i j pattern_size ncmp
  = compare_from fuel file' pattern i j pattern_size ncmp.
Proof.
  revert j ncmp.
  induction fuel as [|fuel IH]; intros j ncmp H; simpl; [done|].
  destruct (Z.ltb_spec j pattern_size) as [Hlt|Hge]; [|done].
  rewrite H by lia. destruct (negb _); [done|].
  apply IH. intros k Hk. apply H. lia.
Qed.

(** The inner loop makes at most one comparison per byte of the pattern it
    has not yet looked at, and at least one if there is such a byte. *)
Lemma compare_from_work (fuel : nat) (file pattern : list byte)
    (i j pattern_size : Z) (ncmp : nat) :
  0 ≤ j ≤ pattern_size → fuel = Z.to_nat (pattern_size - j) →
  let n := (compare_from fuel file pattern i j pattern_size ncmp).2 in
  Z.of_nat ncmp + (if j <? pattern_size then 1 else 0) ≤ Z.of_nat n
  ∧ Z.of_nat n ≤ Z.of_nat ncmp + (pattern_size - j).
Proof.
  revert j ncmp. induction fuel as [|fuel IH]; intros j ncmp Hj Hfuel; simpl.
  - destruct (Z.ltb_spec j pattern_size); lia.
  - destruct (Z.ltb_spec j pattern_size) as [Hlt|Hge]; [|lia].
    destruct (negb _); simpl; [lia|].
    specialize (IH (j + 1) (S ncmp) ltac:(lia) ltac:(lia)). simpl in IH.
    destruct (Z.ltb_spec (j + 1) pattern_size); lia.
Qed.

Lemma find_body_compared (file pattern : list byte)
    (pattern_size displacment i : Z) (st : matcher) :
  compared (find_body file pattern pattern_size displacment i st)
  = (compare_from (Z.to_nat pattern_size) file pattern i 0 pattern_size
       (compared st)).2.
Proof.
  unfold find_body. destruct (compare_from _ _ _ _ _ _ _) as [j ncmp].
  by destruct (j =? pattern_size).
Qed.

(** Every offset of a hit list lies among the positions looked at. *)
Lemma elem_of_hits (file pattern : list byte) (pattern_size n i : Z) :
  i ∈ hits file pattern pattern_size n
  ↔ 0 ≤ i < n ∧ occurs_at file pattern pattern_size i = true.
Proof.
  unfold hits. rewrite list_elem_of_filter, elem_of_seqZ. intuition lia.
Qed.

Lemma hits_empty_pattern (file pattern : list byte) (n : Z) :
  hits file pattern 0 n = seqZ 0 n.
Proof.
  unfold hits. induction (seqZ 0 n) as [|i l IH]; [done|].
  rewrite filter_cons_True by done. by rewrite IH.
Qed.

(** The number of byte comparisons of a scan. *)
Lemma find_string_compared (file pattern : list byte)
    (file_size pattern_size displacment id : Z) (st : matcher) :
  0 ≤ pattern_size ≤ file_size → file_size ≤ INT_MAX →
  let st' :=
    find_string file pattern file_size pattern_size displacment id st in
  let positions := file_size - pattern_size + 1 in
  Z.of_nat (compared st)
    + positions * (if 0 <? pattern_size then 1 else 0)
    ≤ Z.of_nat (compared st')
  ∧ Z.of_nat (compared st')
    ≤ Z.of_nat (compared st) + positions * pattern_size.
Proof.
  intros Hps Hfs. cbv zeta. unfold find_string.
  rewrite to_int_id by (unfold INT_MAX in *; lia).
  apply (for_range_ind
    (λ k s,
       Z.of_nat (compared st) + k * (if 0 <? pattern_size then 1 else 0)
         ≤ Z.of_nat (compared s)
       ∧ Z.of_nat (compared s)
         ≤ Z.of_nat (compared st) + k * pattern_size)); [lia| |].
  - cbv beta. lia.
  - intros k s Hk [Hlo Hhi]. rewrite find_body_compared.
    pose proof (compare_from_work (Z.to_nat pattern_size) file pattern k 0
                  pattern_size (compared s) ltac:(lia) ltac:(f_equal; lia))
      as Hw.
    cbv zeta in Hw. destruct (0 <? pattern_size); lia.
Qed.

(** ** The loops of the partitioner, cell by cell *)

(** One iteration of [distribute_file] writes cell [i] only, with a value
    that does not depend on what the array held. *)
Lemma distribute_body_spec (n pattern_size p i r : Z) (d : gmap Z Z) :
  let v := if 0 <? r then to_int (n + 1) else n in
  let v' := if i <? p - 1
            then to_int (to_size_t (to_size_t v + to_size_t (pattern_size - 1)))
            else v in
  distribute_body n pattern_size p i (d, r)
  = (<[i := v']> d, if 0 <? r then to_int (r - 1) else r).
Proof.
  unfold distribute_body.
  destruct (0 <? r), (i <? p - 1); simpl;
    rewrite ?lookup_total_insert_eq, ?insert_insert_eq; done.
Qed.



(** The closed forms of the tables hold for an empty pattern too, where
    the overlap [pattern_size - 1] is [-1]. *)
Lemma distribute_file_lookup_any (L m p : Z) (a : gmap Z Z) (i : Z) :
  0 ≤ L < INT_MAX → 0 ≤ m → 1 ≤ p → L + m ≤ INT_MAX →
  0 ≤ i < p → distribute_file L m p a !!! i = spec_size L m p i.
Proof.
  intros [HL HL'] Hm Hp Hfit Hi. pose proof (div_bounds L p HL Hp) as Hdiv.
  assert (L + m < 2 ^ 31) as Hfit' by (unfold INT_MAX in Hfit; lia).
  unfold distribute_file.
  rewrite Z.quot_div_nonneg, Z.rem_mod_nonneg by lia.
  rewrite !to_int_small by lia.
  revert i Hi.
  assert (∀ t, 0 ≤ t ≤ p →
    (for_range 0 t (distribute_body (L / p) m p) (a, L mod p)).2
      = Z.max 0 (L mod p - t) ∧
    ∀ i, 0 ≤ i < t →
      (for_range 0 t (distribute_body (L / p) m p) (a, L mod p)).1 !!! i
        = spec_size L m p i) as Hloop.
  { intros t Ht.
    apply (for_range_ind
      (λ t st, st.2 = Z.max 0 (L mod p - t) ∧
               ∀ i, 0 ≤ i < t → st.1 !!! i = spec_size L m p i)); [lia| |].
    - simpl. split; [lia|]. intros; lia.
    - intros k [d r] Hk [Hr Hd]. simpl in Hr, Hd. subst r.
      rewrite distribute_body_spec. cbv zeta. simpl.
      split.
      + destruct (Z.ltb_spec 0 (Z.max 0 (L mod p - k)));
          [rewrite to_int_small by lia|]; lia.
      + intros i Hi. destruct (decide (i = k)) as [->|Hne].
        * rewrite lookup_total_insert_eq. unfold spec_size, spec_share.
          destruct (Z.ltb_spec 0 (Z.max 0 (L mod p - k)));
            destruct (Z.ltb_spec k (L mod p)); try lia;
            destruct (Z.ltb_spec k (p - 1));
            rewrite ?(to_int_small (L / p + 1)) by lia;
            rewrite ?add_overlap_exact by lia; lia.
        * rewrite lookup_total_insert_ne by done. apply Hd. lia. }
  intros i Hi. by apply (Hloop p ltac:(lia)).
Qed.

Lemma displacment_lookup_any (L m p : Z) (a distribute : gmap Z Z) (i : Z) :
  0 ≤ L → 0 ≤ m → 1 ≤ p → L + m ≤ INT_MAX →
  (∀ j, 0 ≤ j < p → distribute !!! j = spec_size L m p j) →
  0 ≤ i < p → displacment a distribute m p !!! i = spec_offset L p i.
Proof.
  intros HL Hm Hp Hfit Hd Hi. unfold displacment.
  assert (L + m < 2 ^ 31) as Hfit' by (unfold INT_MAX in Hfit; lia).
  revert i Hi.
  apply (for_range_ind
    (λ k (displs : gmap Z Z),
       ∀ i, 0 ≤ i < k → displs !!! i = spec_offset L p i)); [lia| |].
  - intros i Hi. replace i with 0 by lia.
    by rewrite lookup_total_insert_eq, spec_offset_0.
  - intros k displs Hk IH i Hi.
    destruct (decide (i = k)) as [->|Hne].
    + rewrite lookup_total_insert_eq.
      rewrite IH, Hd by lia. unfold spec_size.
      destruct (Z.ltb_spec (k - 1) (p - 1)); [|lia].
      pose proof (spec_offset_succ L p (k - 1) ltac:(lia)) as Hs.
      replace (k - 1 + 1) with k in Hs by lia.
      pose proof (spec_offset_bounds L p HL Hp k ltac:(lia)).
      pose proof (spec_offset_bounds L p HL Hp (k - 1) ltac:(lia)).
      rewrite sub_overlap_exact; lia.
    + rewrite lookup_total_insert_ne by done. apply IH. lia.
Qed.

(** The sizes of the blocks add up to the corpus and the overlaps. *)
Lemma spec_size_total (L m p k : Z) :
  0 ≤ k ≤ p - 1 →
  sent_before (spec_size L m p) k = spec_offset L p k + k * (m - 1).
Proof.
  intros Hk.
  assert (∀ n : nat, Z.of_nat n ≤ p - 1 →
    sent_before (spec_size L m p) (Z.of_nat n)
    = spec_offset L p (Z.of_nat n) + Z.of_nat n * (m - 1)) as Hn.
  { induction n as [|n IH]; intros Hn.
    - pose proof (Z.mod_pos_bound L p ltac:(lia)).
      unfold spec_offset. rewrite sent_before_0. lia.
    - rewrite Nat2Z.inj_succ, <- Z.add_1_r.
      rewrite sent_before_succ, spec_offset_succ, IH by lia.
      unfold spec_size. destruct (Z.ltb_spec (Z.of_nat n) (p - 1)); lia. }
  specialize (Hn (Z.to_nat k)). rewrite Z2Nat.id in Hn by lia.
  apply Hn. lia.
Qed.

Lemma cells_app (arr : gmap Z Z) (a n : Z) :
  0 ≤ a → 0 ≤ n →
  cells arr (a + n) = cells arr a ++ ((λ j, arr !!! (a + j)) <$> seqZ 0 n).
Proof.
  intros Ha Hn. unfold cells. rewrite seqZ_app, fmap_app by lia.
  f_equal. rewrite Z.add_0_l.
  replace (seqZ a n) with (seqZ (a + 0) n) by (f_equal; lia).
  rewrite <- fmap_add_seqZ, <- list_fmap_compose. done.
Qed.

(** ** The searches of the ranks and the output *)




(** ** The block of the root and its system calls *)

(** When the system calls of the root succeed and deliver the content of
    the file, the block of the root is the one [main] is given. *)
Lemma root_block_io_file (sys : system) (garbage : Z)
    (pattern path file : list byte) (p id : Z) :
  sys_open sys path ≠ -1 →
  sys_lseek sys (sys_open sys path) 0 SEEK_END = Z.of_nat (length file) →
  sys_malloc sys (to_size_t (Z.of_nat (length file))) = true →
  sys_lseek sys (sys_open sys path) 0 SEEK_SET ≠ -1 →
  sys_read sys (sys_open sys path) (to_size_t (Z.of_nat (length file)))
    = Some file →
  match root_block_io sys garbage pattern path p id with
  | inl (_, msg) => inl msg
  | inr values => inr values
  end = root_block garbage pattern file p id.
Proof.
  intros Hopen Hsize Hmalloc Hseek Hread. unfold root_block_io, root_block.
  destruct (id =? ROOT); [|done].
  destruct (Z.eqb_spec (sys_open sys path) (-1)) as [|_]; [done|].
  cbv zeta. rewrite Hsize.
  destruct (Z.eqb_spec (Z.of_nat (length file)) (-1)) as [|_]; [lia|].
  destruct (to_size_t (Z.of_nat (length file) - 1) <? Z.of_nat (length pattern));
    [done|].
  rewrite Hmalloc. simpl.
  destruct (Z.eqb_spec (sys_lseek sys (sys_open sys path) 0 SEEK_SET) (-1))
    as [|_]; [done|].
  rewrite Hread, Z.eqb_refl. done.
Qed.

(** The block of the root ends with a call of [fatal_error] with one of
    five messages, or it has read the whole file. *)
Lemma root_block_io_cases (sys : system) (garbage : Z)
    (argv1 argv2 : list byte) (p : Z) :
  let fd := sys_open sys argv2 in
  let file_size := sys_lseek sys fd 0 SEEK_END in
  (∃ errornum msg,
     root_block_io sys garbage argv1 argv2 p ROOT = inl (errornum, msg) ∧
     msg ∈ ["Unable to open file"; "Error seeking in file"; SizeError;
            "Memory allocation failed for file buffer";
            "Error reading from file"]%string) ∨
  (∃ file,
     fd ≠ -1 ∧ file_size = Z.of_nat (length file) ∧
     (to_size_t (file_size - 1) <? Z.of_nat (length argv1)) = false ∧
     sys_malloc sys (to_size_t file_size) = true ∧
     sys_lseek sys fd 0 SEEK_SET ≠ -1 ∧
     sys_read sys fd (to_size_t file_size) = Some file).
Proof.
  cbv zeta. unfold root_block_io. change (ROOT =? ROOT) with true. cbv iota.
  destruct (Z.eqb_spec (sys_open sys argv2) (-1)) as [|Hopen].
  { left. do 2 eexists. split; [done|]. repeat constructor. }
  cbv zeta.
  destruct (Z.eqb_spec (sys_lseek sys (sys_open sys argv2) 0 SEEK_END) (-1))
    as [|Hsize].
  { left. do 2 eexists. split; [done|]. repeat constructor. }
  destruct (to_size_t _ <? _) eqn:Hcheck.
  { left. do 2 eexists. split; [done|]. repeat constructor. }
  destruct (sys_malloc sys _) eqn:Hmalloc; simpl.
  2: { left. do 2 eexists. split; [done|]. repeat constructor. }
  destruct (Z.eqb_spec (sys_lseek sys (sys_open sys argv2) 0 SEEK_SET) (-1))
    as [|Hseek].
  { left. do 2 eexists. split; [done|]. repeat constructor. }
  destruct (sys_read sys _ _) as [file|] eqn:Hread.
  2: { left. do 2 eexists. split; [done|]. repeat constructor. }
  destruct (Z.eqb_spec (Z.of_nat (length file))
              (sys_lseek sys (sys_open sys argv2) 0 SEEK_END)) as [Hlen|];
    simpl.
  2: { left. do 2 eexists. split; [done|]. repeat constructor. }
  right. exists file. by rewrite <- Hlen.
Qed.

(** On a command line with a pattern and a file whose system calls
    succeed, every rank runs [main] on the content of the file. *)
Lemma main_argv_file (sys : system) (garbage : Z)
    (prog pattern path file : list byte) (p id : Z) :
  sys_open sys path ≠ -1 →
  sys_lseek sys (sys_open sys path) 0 SEEK_END = Z.of_nat (length file) →
  sys_malloc sys (to_size_t (Z.of_nat (length file))) = true →
  sys_lseek sys (sys_open sys path) 0 SEEK_SET ≠ -1 →
  sys_read sys (sys_open sys path) (to_size_t (Z.of_nat (length file)))
    = Some file →
  main_argv sys garbage [prog; pattern; path] p id
  = main garbage pattern file p id.
Proof.
  intros Hopen Hsize Hmalloc Hseek Hread. unfold main_argv, main. simpl.
  pose proof (root_block_io_file sys garbage pattern path file p id
                Hopen Hsize Hmalloc Hseek Hread) as Hblock.
  destruct (root_block_io _ _ _ _ _ _) as [[errornum msg]|values];
    rewrite <- Hblock; done.
Qed.

(** ** The cells written by the gather *)

Lemma write_block_is_Some (buf : gmap Z Z) (d n : Z) (v : Z → Z) (j : Z) :
  is_Some (for_range 0 n (λ k buf, <[d + k := v k]> buf) buf !! j)
  ↔ is_Some (buf !! j) ∨ d ≤ j < d + n.
Proof.
  destruct (Z.le_gt_cases n 0) as [Hn|Hn].
  { rewrite for_range_empty by lia. intuition lia. }
  apply (for_range_ind
    (λ n (b : gmap Z Z),
       is_Some (b !! j) ↔ is_Some (buf !! j) ∨ d ≤ j < d + n)); [lia| |].
  - intuition lia.
  - intros k b Hk IH. destruct (decide (j = d + k)) as [->|Hne].
    + rewrite lookup_insert_eq. split; [intros _; right; lia|by eexists].
    + rewrite lookup_insert_ne by done. rewrite IH. intuition lia.
Qed.

Lemma total_indexes_spec (p : Z) (cnt : Z → Z) (recv_counts : gmap Z Z) :
  1 ≤ p → (∀ i, 0 ≤ i < p → 0 ≤ cnt i) → sent_before cnt p ≤ INT_MAX →
  (∀ j, 0 ≤ j < p → recv_counts !!! j = cnt j) →
  total_indexes recv_counts p = sent_before cnt p.
Proof.
  intros Hp Hcnt Htotal Hrc. unfold total_indexes.
  apply (for_range_ind (λ t total, total = sent_before cnt t)); [lia|done|].
  intros i total Hi ->. rewrite Hrc by lia.
  rewrite <- sent_before_succ by lia.
  apply to_int_small, (sent_before_bounds p cnt Hcnt Htotal). lia.
Qed.

Lemma gatherv_blocks_is_Some (p : Z) (cnt : Z → Z) (fnd : Z → gmap Z Z)
    (recv_counts displs : gmap Z Z) (k : Z) :
  1 ≤ p → (∀ i, 0 ≤ i < p → 0 ≤ cnt i) → sent_before cnt p ≤ INT_MAX →
  (∀ j, 0 ≤ j < p → recv_counts !!! j = cnt j) →
  (∀ j, 0 ≤ j < p → displs !!! j = sent_before cnt j) →
  is_Some (gatherv_blocks fnd recv_counts displs p ∅ !! k)
  ↔ 0 ≤ k < sent_before cnt p.
Proof.
  intros Hp Hcnt Htotal Hrc Hdp. unfold gatherv_blocks.
  apply (for_range_ind
    (λ t (b : gmap Z Z), is_Some (b !! k) ↔ 0 ≤ k < sent_before cnt t));
    [lia| |].
  - rewrite lookup_empty, sent_before_0. split; [by intros [? ?]|lia].
  - intros t b Ht IH. rewrite write_block_is_Some, IH, Hrc, Hdp by lia.
    rewrite sent_before_succ by lia.
    pose proof (sent_before_bounds p cnt Hcnt Htotal t ltac:(lia)).
    pose proof (Hcnt t ltac:(lia)). lia.
Qed.

(** * The claims *)

(** C1, on the code: with the corpus ["aaa"] (file ["aaaa"]) and the
    pattern ["aaa"], three workers print the offsets 0 and 1 while one
    worker prints the offset 0 only; the block of worker 1 reaches the
    last byte of the file, which one worker never reads. *)
Theorem worker_count_changes_output (beyond : Z → byte) (garbage : Z → Z) :
  mpirun beyond garbage (bytes "aaa") (bytes "aaa" ++ ["a"%byte]) 3
    = Finished [0; 1] ∧
  mpirun beyond garbage (bytes "aaa") (bytes "aaa" ++ ["a"%byte]) 1
    = Finished [0].
Proof.
  rewrite !mpirun_kernel by (simpl; unfold INT_MAX; lia).
  split; vm_compute; reflexivity.
Qed.

(** C2, on the code: with a corpus of 96 bytes that is the pattern itself
    (a file of 97 bytes) and two workers the pattern occurs at offset 0
    and the size check passes, but the tables give worker 1 a block of 48
    bytes, shorter than the pattern by more than one byte: its array
    [found] is declared with [48 - 96] elements, a size that [size_t]
    makes [2 ^ 64 - 48].  No array has that size: from this declaration
    on the run of worker 1 is not defined, and the occurrence at offset 0
    is not printed by a run that ends there. *)
Theorem found_declared_with_negative_size (s : byte) :
  let P := replicate 96 "a"%byte in
  let file := P ++ [s] in
  let file_size := Z.of_nat (length file) in
  let pattern_size := Z.of_nat (length P) in
  let distribute := root_distribute file_size pattern_size 2 in
  occurrence P P 0 ∧
  (to_size_t (file_size - 1) <? pattern_size) = false ∧
  cells distribute 2 = [143; 48] ∧
  to_int (distribute !!! 1 - pattern_size) = -48 ∧
  found_capacity distribute pattern_size 1 = 2 ^ 64 - 48.
Proof.
  cbv zeta. split; [split; [lia|reflexivity]|].
  vm_compute. repeat split; reflexivity.
Qed.

(** C3, on the code: with the corpus ["aaa"] (file ["aaaa"]), the pattern
    ["aaa"] and three workers, the offset 1 is printed although only two
    bytes of the corpus start there: worker 1 has found the pattern in a
    block that ends with the last byte of the file. *)
Theorem reported_offset_outside_corpus (beyond : Z → byte)
    (garbage : Z → Z) :
  mpirun beyond garbage (bytes "aaa") (bytes "aaa" ++ ["a"%byte]) 3
    = Finished [0; 1] ∧
  ¬ occurrence (bytes "aaa") (bytes "aaa") 1.
Proof.
  rewrite mpirun_kernel by (simpl; unfold INT_MAX; lia).
  split; [vm_compute; reflexivity|].
  intros [_ H]. vm_compute in H. discriminate.
Qed.

(** C4, on the code: for the empty file the size check does not fire.  The
    test [file_size - 1 < pattern_size] compares an [intmax_t] with a
    [size_t], so [-1] is converted to [2 ^ 64 - 1]: the root does not call
    [fatal_error] and goes on to the first broadcast, with the tables of
    [distribute_file(-1, ...)], although the pattern is longer than the
    file. *)
Theorem empty_file_not_rejected (beyond : Z → byte) (garbage : Z → Z)
    (N : Z) :
  (to_size_t (Z.of_nat (length (@nil byte)) - 1)
     <? Z.of_nat (length (bytes "a"))) = false ∧
  next_call (main (garbage ROOT) (bytes "a") [] N ROOT) = Some Bcast_ints ∧
  mpirun beyond garbage (bytes "a") [] N ≠ Aborted SizeError.
Proof.
  split; [reflexivity|]. split; [reflexivity|].
  destruct (Z.le_gt_cases 1 N) as [HN|HN].
  - rewrite mpirun_kernel by (simpl; unfold INT_MAX; lia).
    unfold kernel.
    change (to_size_t (Z.of_nat (length (@nil byte)) - 1)
              <? Z.of_nat (length (bytes "a"))) with false.
    cbv iota. discriminate.
  - unfold mpirun, processes. simpl. unfold aborting, exits.
    rewrite seqZ_nil by lia. simpl. discriminate.
Qed.


(** C6: for every corpus length [L], pattern length [m ≥ 1] and worker
    count [p ≥ 1] that fit an [int], [distribute_file] gives worker [i] the
    base share [L / p], one more byte if [i < L mod p], and [m - 1] bytes of
    overlap unless it is the last; [displacment] gives offset 0 to worker
    0 and [offset[i - 1] + size[i - 1] - (m - 1)] to worker [i ≥ 1]; the
    territories without their overlap follow one another from 0 to [L]. *)
Theorem partition_table_spec (L m p : Z) (a b : gmap Z Z) :
  0 ≤ L → 1 ≤ m → 1 ≤ p → L + m ≤ INT_MAX →
  let size := distribute_file L m p a in
  let offset := displacment b size m p in
  (∀ i, 0 ≤ i < p →
     size !!! i = L / p + (if i <? L mod p then 1 else 0)
                  + (if i <? p - 1 then m - 1 else 0)) ∧
  offset !!! 0 = 0 ∧
  (∀ i, 1 ≤ i < p →
     offset !!! i = offset !!! (i - 1) + size !!! (i - 1) - (m - 1)) ∧
  (∀ i, 0 ≤ i < p - 1 →
     offset !!! (i + 1) = offset !!! i + spec_share L p i) ∧
  offset !!! (p - 1) + spec_share L p (p - 1) = L.
Proof.
  intros HL Hm Hp Hfit size offset.
  assert (∀ i, 0 ≤ i < p → size !!! i = spec_size L m p i) as Hsize
    by (intros; by apply distribute_file_lookup).
  assert (∀ i, 0 ≤ i < p → offset !!! i = spec_offset L p i) as Hoffset
    by (intros; by apply (displacment_lookup L m p)).
  split; [|split; [|split; [|split]]].
  - intros i Hi. by rewrite Hsize.
  - rewrite Hoffset by lia. by apply spec_offset_0.
  - intros i Hi. rewrite !Hoffset, Hsize by lia.
    pose proof (spec_offset_succ L p (i - 1) ltac:(lia)) as Hs.
    replace (i - 1 + 1) with i in Hs by lia.
    unfold spec_size. destruct (Z.ltb_spec (i - 1) (p - 1)); lia.
  - intros i Hi. rewrite !Hoffset by lia. apply spec_offset_succ. lia.
  - rewrite Hoffset by lia.
    rewrite <- spec_offset_succ by lia.
    replace (p - 1 + 1) with p by lia. by apply spec_offset_total.
Qed.

Lemma partition_table_spec_witness :
  let size := distribute_file 5 2 2 ∅ in
  let offset := displacment ∅ size 2 2 in
  (∀ i, 0 ≤ i < 2 →
     size !!! i = 5 / 2 + (if i <? 5 mod 2 then 1 else 0)
                  + (if i <? 2 - 1 then 2 - 1 else 0)) ∧
  offset !!! 0 = 0 ∧
  (∀ i, 1 ≤ i < 2 →
     offset !!! i = offset !!! (i - 1) + size !!! (i - 1) - (2 - 1)) ∧
  (∀ i, 0 ≤ i < 2 - 1 →
     offset !!! (i + 1) = offset !!! i + spec_share 5 2 i) ∧
  offset !!! (2 - 1) + spec_share 5 2 (2 - 1) = 5.
Proof.
  apply (partition_table_spec 5 2 2 ∅ ∅); unfold INT_MAX; lia.
Defined.



(** C8, on the code: on the corpus ["aa"] with the pattern ["a"] and one
    process, the segment has 2 bytes, the array [found] is declared with
    [2 - 1 = 1] element, and the matcher records 2 matches: the second one
    is stored in [found[1]], past the end of the array. *)
Theorem found_written_past_capacity (beyond : Z → byte) (garbage : Z → Z)
    (s : byte) :
  ∃ l,
    processes beyond garbage (bytes "a") (bytes "aa" ++ [s]) 1
      = Completed [l] ∧
    v_distribute l !!! 0 = 2 ∧
    found_capacity (v_distribute l) (v_pattern_size l) 0 = 1 ∧
    count (v_search l) = 2 ∧
    found (v_search l) !! 1 = Some 1.
Proof.
  eexists. split; [vm_compute; reflexivity|].
  vm_compute. repeat split; reflexivity.
Qed.

(** C9, on the code: for a file of 4 bytes, a pattern of 3 bytes and
    three workers, [displs[1] + distribute[1] = 4 > file_size - 1], and
    the block scattered to worker 1 ends with the last byte of the file. *)
Theorem scatter_reaches_last_byte (beyond : Z → byte) (s : byte) :
  let distribute := root_distribute 4 3 3 in
  let displs := root_displs 4 3 3 in
  displs !!! 1 + distribute !!! 1 = 4 ∧
  scatterv_block beyond (bytes "abc" ++ [s]) distribute displs 1
  = ["b"%byte; "c"%byte; s].
Proof. vm_compute. split; reflexivity. Qed.

(** C10: on a segment shorter than the pattern the scan loop of
    [find_string] has no iteration: no byte is compared, no match is
    recorded and the count keeps its value, which is zero in [main]. *)
Theorem short_segment_not_scanned (file pattern : list byte)
    (file_size pattern_size displacment id : Z) (st : matcher) :
  0 ≤ file_size < pattern_size → pattern_size ≤ INT_MAX →
  seqZ 0 (to_int (file_size - pattern_size) + 1 - 0) = [] ∧
  let st' :=
    find_string file pattern file_size pattern_size displacment id st in
  compared st' = compared st ∧ found st' = found st ∧ count st' = count st.
Proof.
  intros Hsmall Hmax. unfold INT_MAX in Hmax.
  assert (to_int (file_size - pattern_size) = file_size - pattern_size) as Hi
    by (apply to_int_id; lia).
  split.
  - apply seqZ_nil. lia.
  - simpl. unfold find_string. by rewrite for_range_empty by lia.
Qed.

Lemma short_segment_not_scanned_witness :
  seqZ 0 (to_int (1 - 2) + 1 - 0) = [] ∧
  let st' := find_string (bytes "a") (bytes "aa") 1 2 4 1
               {| found := ∅; count := 0; compared := O |} in
  compared st' = O ∧ found st' = ∅ ∧ count st' = 0.
Proof.
  apply (short_segment_not_scanned (bytes "a") (bytes "aa") 1 2 4 1
           {| found := ∅; count := 0; compared := O |}).
  - lia.
  - unfold INT_MAX. lia.
Defined.

(** * Further properties of the code *)

(** ** The matcher *)

(** X1: on a buffer that holds the [file_size] bytes it is told to scan,
    [find_string], entered with a zero count, leaves in [found[0 .. count -
    1]] the absolute offsets of the occurrences of the pattern that lie
    wholly inside the first [file_size] bytes: all of them, nothing else,
    in ascending order. *)
Theorem find_string_finds_occurrences (file pattern : list byte)
    (file_size displacment id : Z) (fd : gmap Z Z) (nc : nat) :
  1 ≤ Z.of_nat (length pattern) ≤ INT_MAX →
  0 ≤ file_size ≤ Z.of_nat (length file) →
  0 ≤ displacment → displacment + file_size ≤ INT_MAX →
  let st := find_string file pattern file_size (Z.of_nat (length pattern))
              displacment id {| found := fd; count := 0; compared := nc |} in
  StronglySorted Z.lt (cells (found st) (count st)) ∧
  ∀ o, o ∈ cells (found st) (count st)
       ↔ displacment ≤ o ≤ displacment + file_size - Z.of_nat (length pattern)
         ∧ occurrence file pattern (o - displacment).
Proof.
  intros Hm Hfs Hd Hfit. cbv zeta.
  set (m := Z.of_nat (length pattern)) in *.
  destruct (Z.le_gt_cases m file_size) as [Hle|Hgt].
  - destruct (find_string_spec file pattern file_size m displacment id fd nc)
      as [_ ->]; [lia..|].
    assert ((λ i, to_int (i + displacment))
              <$> hits file pattern m (file_size - m + 1)
            = filter (λ o, occurs_at file pattern m (o - displacment) = true)
                     (seqZ displacment (file_size - m + 1))) as ->.
    { rewrite <- (filter_shift (occurs_at file pattern m)).
      - apply list_fmap_ext. intros k i Hi.
        apply list_elem_of_lookup_2, elem_of_hits in Hi as [Hi _].
        apply to_int_small. lia.
      - intros i Hi. f_equal. lia. }
    split; [apply filter_ascending, seqZ_ascending|].
    intros o. rewrite list_elem_of_filter, elem_of_seqZ.
    split.
    + intros [Hocc Ho]. split; [lia|].
      apply occurs_at_occurrence; [lia|fold m; lia|done].
    + intros [Ho Hocc]. split; [|lia].
      apply occurs_at_occurrence; [lia|fold m; lia|done].
  - destruct (find_string_spec file pattern file_size m displacment id fd nc)
      as [_ ->]; [lia..|].
    unfold hits. rewrite seqZ_nil by lia. simpl.
    split; [constructor|].
    intros o. split; [by intros ?%elem_of_nil|lia].
Qed.

Lemma find_string_finds_occurrences_witness :
  let st := find_string (bytes "abcabc") (bytes "bc") 6
              (Z.of_nat (length (bytes "bc"))) 10 0
              {| found := ∅; count := 0; compared := O |} in
  StronglySorted Z.lt (cells (found st) (count st)) ∧
  ∀ o, o ∈ cells (found st) (count st)
       ↔ 10 ≤ o ≤ 10 + 6 - Z.of_nat (length (bytes "bc"))
         ∧ occurrence (bytes "abcabc") (bytes "bc") (o - 10).
Proof.
  apply (find_string_finds_occurrences (bytes "abcabc") (bytes "bc") 6 10 0
           ∅ O).
  - simpl. unfold INT_MAX. lia.
  - simpl. lia.
  - lia.
  - unfold INT_MAX. lia.
Defined.

(** X2: [find_string] does not reset the count it is given (the
    assignment [*count = 0] is commented out): entered with [count]
    matches already recorded, it keeps them, appends to them what a scan
    entered with a zero count records, and writes no other cell of
    [found]. *)
Theorem find_string_appends (file pattern : list byte)
    (file_size pattern_size displacment id : Z) (st : matcher) :
  0 ≤ pattern_size ≤ INT_MAX → 0 ≤ file_size →
  0 ≤ count st → count st + file_size + 1 ≤ INT_MAX →
  let fresh :=
    find_string file pattern file_size pattern_size displacment id
                {| found := ∅; count := 0; compared := O |} in
  let st' :=
    find_string file pattern file_size pattern_size displacment id st in
  count st' = count st + count fresh ∧
  cells (found st') (count st')
    = cells (found st) (count st) ++ cells (found fresh) (count fresh) ∧
  ∀ k, k < count st ∨ count st' ≤ k → found st' !! k = found st !! k.
Proof.
  intros Hps Hfs Hc Hroom.
  destruct (find_string_from file pattern file_size pattern_size displacment
              id st) as (Hc' & Hf' & Hfr); [lia..|].
  destruct (find_string_from file pattern file_size pattern_size displacment
              id {| found := ∅; count := 0; compared := O |})
    as (Hc0 & Hf0 & _); [simpl; lia..|].
  cbv zeta in *. simpl in Hc0, Hf0.
  rewrite Hf0, Hc0. simpl.
  split; [lia|]. split; [done|]. done.
Qed.

Lemma find_string_appends_witness :
  let st := {| found := <[0 := 7]> ∅; count := 1; compared := O |} in
  let fresh :=
    find_string (bytes "abcabc") (bytes "bc") 6 2 10 0
                {| found := ∅; count := 0; compared := O |} in
  let st' := find_string (bytes "abcabc") (bytes "bc") 6 2 10 0 st in
  count st' = count st + count fresh ∧
  cells (found st') (count st')
    = cells (found st) (count st) ++ cells (found fresh) (count fresh) ∧
  ∀ k, k < count st ∨ count st' ≤ k → found st' !! k = found st !! k.
Proof.
  apply (find_string_appends (bytes "abcabc") (bytes "bc") 6 2 10 0
           {| found := <[0 := 7]> ∅; count := 1; compared := O |}).
  - unfold INT_MAX. lia.
  - lia.
  - simpl. lia.
  - simpl. unfold INT_MAX. lia.
Defined.

(** X3: [find_string] reads the file buffer at the indices below
    [file_size] and the pattern buffer at the indices below [pattern_size]
    only: what lies behind them has no influence on the matches recorded,
    on the count or on the number of comparisons. *)
Theorem find_string_reads_within_bounds (file file' pattern pattern' : list byte)
    (file_size pattern_size displacment id : Z) (st : matcher) :
  0 ≤ pattern_size ≤ INT_MAX → 0 ≤ file_size ≤ INT_MAX →
  (∀ k, 0 ≤ k < file_size → file !!! Z.to_nat k = file' !!! Z.to_nat k) →
  (∀ k, 0 ≤ k < pattern_size →
     pattern !!! Z.to_nat k = pattern' !!! Z.to_nat k) →
  find_string file pattern file_size pattern_size displacment id st
  = find_string file' pattern' file_size pattern_size displacment id st.
Proof.
  intros Hps Hfs Hfile Hpattern.
  rewrite (find_string_pattern_ext file pattern pattern') by done.
  unfold find_string. rewrite to_int_id by (unfold INT_MAX in *; lia).
  apply for_range_ext. intros i s Hi. unfold find_body.
  rewrite (compare_from_file_ext _ file file'); [done|].
  intros k Hk. apply Hfile. lia.
Qed.

Lemma find_string_reads_within_bounds_witness :
  find_string (bytes "abcabcXY") (bytes "bcZ") 6 2 10 0
              {| found := ∅; count := 0; compared := O |}
  = find_string (bytes "abcabc") (bytes "bc") 6 2 10 0
                {| found := ∅; count := 0; compared := O |}.
Proof.
  apply (find_string_reads_within_bounds (bytes "abcabcXY") (bytes "abcabc")
           (bytes "bcZ") (bytes "bc") 6 2 10 0
           {| found := ∅; count := 0; compared := O |}).
  - unfold INT_MAX. lia.
  - unfold INT_MAX. lia.
  - intros k Hk.
    assert (k = 0 ∨ k = 1 ∨ k = 2 ∨ k = 3 ∨ k = 4 ∨ k = 5) as Hcases by lia.
    destruct Hcases as [->|[->|[->|[->|[->| ->]]]]]; reflexivity.
  - intros k Hk.
    assert (k = 0 ∨ k = 1) as [->| ->] by lia; reflexivity.
Defined.



(** X5: with an empty pattern ([pattern_size = 0]) the inner loop is not
    entered and every position matches: [find_string] records the
    [file_size + 1] offsets [displacment .. displacment + file_size],
    one more than the segment has bytes, without comparing any byte. *)
Theorem find_string_empty_pattern (file pattern : list byte)
    (file_size displacment id : Z) (fd : gmap Z Z) (nc : nat) :
  0 ≤ file_size < INT_MAX → 0 ≤ displacment →
  displacment + file_size ≤ INT_MAX →
  let st := find_string file pattern file_size 0 displacment id
              {| found := fd; count := 0; compared := nc |} in
  count st = file_size + 1 ∧
  cells (found st) (count st) = seqZ displacment (file_size + 1) ∧
  compared st = nc.
Proof.
  intros Hfs Hd Hfit.
  destruct (find_string_from file pattern file_size 0 displacment id
              {| found := fd; count := 0; compared := nc |})
    as (Hc & Hf & _); [simpl; unfold INT_MAX in *; lia..|].
  pose proof (find_string_compared file pattern file_size 0 displacment id
                {| found := fd; count := 0; compared := nc |}
                ltac:(lia) ltac:(lia)) as Hw.
  cbv zeta in *. simpl in Hc, Hf, Hw.
  rewrite hits_empty_pattern in Hc, Hf.
  rewrite length_seqZ in Hc. rewrite Z.sub_0_r in Hc, Hf.
  split; [lia|]. split; [|lia].
  rewrite Hf.
  replace (seqZ displacment (file_size + 1))
    with (seqZ (displacment + 0) (file_size + 1)) by (f_equal; lia).
  rewrite <- (fmap_add_seqZ displacment 0).
  apply list_fmap_ext. intros k i Hi.
  apply lookup_seqZ in Hi. rewrite to_int_small by lia. lia.
Qed.

Lemma find_string_empty_pattern_witness :
  let st := find_string (bytes "abc") [] 3 0 10 0
              {| found := ∅; count := 0; compared := O |} in
  count st = 3 + 1 ∧
  cells (found st) (count st) = seqZ 10 (3 + 1) ∧
  compared st = O.
Proof.
  apply (find_string_empty_pattern (bytes "abc") [] 3 10 0 ∅ O).
  - unfold INT_MAX. lia.
  - lia.
  - unfold INT_MAX. lia.
Defined.

(** ** The partitioner *)

(** X6: what the comment of [distribute_file] says: every worker gets at
    least [file_size / p] bytes and the last one gets exactly that, the
    extra bytes going to the others; the blocks of the workers other than
    the last differ by one byte at most, the earlier worker having the
    larger one; and the blocks add up to the corpus plus one overlap per
    worker but the last. *)
Theorem distribute_file_shares (L m p : Z) (a : gmap Z Z) :
  0 ≤ L → 1 ≤ m → 1 ≤ p → L + m ≤ INT_MAX →
  let distribute := distribute_file L m p a in
  (∀ i, 0 ≤ i < p → L / p ≤ distribute !!! i) ∧
  distribute !!! (p - 1) = L / p ∧
  (∀ i j, 0 ≤ i ≤ j → j < p - 1 →
     0 ≤ distribute !!! i - distribute !!! j ≤ 1) ∧
  foldr Z.add 0 (cells distribute p) = L + (p - 1) * (m - 1).
Proof.
  intros HL Hm Hp Hfit distribute.
  pose proof (div_bounds L p HL Hp) as Hdiv.
  assert (∀ i, 0 ≤ i < p → distribute !!! i = spec_size L m p i) as Hsize
    by (intros; by apply distribute_file_lookup).
  split; [|split; [|split]].
  - intros i Hi. rewrite Hsize by done. unfold spec_size, spec_share.
    destruct (i <? L mod p), (i <? p - 1); lia.
  - rewrite Hsize by lia. unfold spec_size, spec_share.
    destruct (Z.ltb_spec (p - 1) (L mod p)); [lia|].
    destruct (Z.ltb_spec (p - 1) (p - 1)); lia.
  - intros i j Hij Hj. rewrite !Hsize by lia. unfold spec_size, spec_share.
    destruct (Z.ltb_spec i (L mod p)), (Z.ltb_spec j (L mod p)),
      (Z.ltb_spec i (p - 1)), (Z.ltb_spec j (p - 1)); lia.
  - change (foldr Z.add 0 (cells distribute p))
      with (sent_before (λ i, distribute !!! i) p).
    unfold sent_before.
    rewrite (list_fmap_ext _ (spec_size L m p) (seqZ 0 p))
      by (intros n i Hi%lookup_seqZ; apply Hsize; lia).
    fold (sent_before (spec_size L m p) p).
    replace p with (p - 1 + 1) at 2 by lia.
    rewrite sent_before_succ, spec_size_total by lia.
    pose proof (spec_offset_succ L p (p - 1) ltac:(lia)) as Hlast.
    replace (p - 1 + 1) with p in Hlast by lia.
    rewrite spec_offset_total in Hlast by lia.
    unfold spec_size. destruct (Z.ltb_spec (p - 1) (p - 1)); lia.
Qed.

Lemma distribute_file_shares_witness :
  let distribute := distribute_file 11 3 4 ∅ in
  (∀ i, 0 ≤ i < 4 → 11 / 4 ≤ distribute !!! i) ∧
  distribute !!! (4 - 1) = 11 / 4 ∧
  (∀ i j, 0 ≤ i ≤ j → j < 4 - 1 →
     0 ≤ distribute !!! i - distribute !!! j ≤ 1) ∧
  foldr Z.add 0 (cells distribute 4) = 11 + (4 - 1) * (3 - 1).
Proof.
  apply (distribute_file_shares 11 3 4 ∅); unfold INT_MAX; lia.
Defined.



(** X8: for an empty pattern the overlap [pattern_size - 1] is [-1]:
    every worker but the last is given one byte less than its share of the
    corpus, which is [-1] bytes for a worker whose share is empty, while
    the displacements still are the starts of the shares. *)
Theorem partition_empty_pattern (L p : Z) (a b : gmap Z Z) :
  0 ≤ L < INT_MAX → 1 ≤ p →
  let distribute := distribute_file L 0 p a in
  let displs := displacment b distribute 0 p in
  (∀ i, 0 ≤ i < p - 1 →
     distribute !!! i = L / p + (if i <? L mod p then 1 else 0) - 1) ∧
  distribute !!! (p - 1) = L / p ∧
  (∀ i, 0 ≤ i < p → displs !!! i = i * (L / p) + Z.min i (L mod p)) ∧
  (L < p - 1 → distribute !!! (p - 2) = -1).
Proof.
  intros HL Hp distribute displs.
  pose proof (div_bounds L p ltac:(lia) Hp) as Hdiv.
  assert (∀ i, 0 ≤ i < p → distribute !!! i = spec_size L 0 p i) as Hsize
    by (intros; apply distribute_file_lookup_any; lia).
  split; [|split; [|split]].
  - intros i Hi. rewrite Hsize by lia. unfold spec_size, spec_share.
    destruct (Z.ltb_spec i (p - 1)); lia.
  - rewrite Hsize by lia. unfold spec_size, spec_share.
    destruct (Z.ltb_spec (p - 1) (L mod p)); [lia|].
    destruct (Z.ltb_spec (p - 1) (p - 1)); lia.
  - intros i Hi. by apply (displacment_lookup_any L 0 p); [lia..| |].
  - intros Hfew. rewrite Hsize by lia. unfold spec_size, spec_share.
    rewrite Z.div_small, Z.mod_small by lia.
    destruct (Z.ltb_spec (p - 2) L); [lia|].
    destruct (Z.ltb_spec (p - 2) (p - 1)); lia.
Qed.

Lemma partition_empty_pattern_witness :
  let distribute := distribute_file 2 0 4 ∅ in
  let displs := displacment ∅ distribute 0 4 in
  (∀ i, 0 ≤ i < 4 - 1 →
     distribute !!! i = 2 / 4 + (if i <? 2 mod 4 then 1 else 0) - 1) ∧
  distribute !!! (4 - 1) = 2 / 4 ∧
  (∀ i, 0 ≤ i < 4 → displs !!! i = i * (2 / 4) + Z.min i (2 mod 4)) ∧
  (2 < 4 - 1 → distribute !!! (4 - 2) = -1).
Proof.
  apply (partition_empty_pattern 2 4 ∅ ∅); unfold INT_MAX; lia.
Defined.

(** ** The output *)

(** X9: [print_index] prints the cells of [arr] in the order of their
    indices, from cell 0 on, as many of them as the counts of
    [recv_counts] add up to: the blocks of the ranks have to lie side by
    side in [arr], in the order of the ranks. *)
Theorem print_index_prints_first_cells (arr recv_counts : gmap Z Z) (p : Z) :
  1 ≤ p → (∀ i, 0 ≤ i < p → 0 ≤ recv_counts !!! i) →
  foldr Z.add 0 (cells recv_counts p) ≤ INT_MAX →
  print_index arr recv_counts p
  = cells arr (foldr Z.add 0 (cells recv_counts p)).
Proof.
  change (foldr Z.add 0 (cells recv_counts p))
    with (sent_before (λ i, recv_counts !!! i) p).
  intros Hp Hcnt Htotal. unfold print_index.
  set (cnt := λ i, recv_counts !!! i) in *.
  assert (∀ t, 0 ≤ t ≤ p →
    for_range 0 t (λ i '(offset, out),
       (to_int (offset + recv_counts !!! i),
        for_range 0 (recv_counts !!! i)
                  (λ j out, out ++ [arr !!! to_int (offset + j)]) out))
      (0, [])
    = (sent_before cnt t, cells arr (sent_before cnt t))) as Hloop.
  { intros t Ht.
    apply (for_range_ind
      (λ t (st : Z * list Z),
         st = (sent_before cnt t, cells arr (sent_before cnt t))));
      [lia|done|].
    intros k st Hk ->. rewrite print_block.
    pose proof (sent_before_bounds p cnt Hcnt Htotal k ltac:(lia)) as Hb.
    pose proof (sent_before_bounds p cnt Hcnt Htotal (k + 1) ltac:(lia))
      as Hb'.
    rewrite sent_before_succ in Hb' |- * by lia.
    fold (cnt k). rewrite to_int_small by lia.
    f_equal. rewrite cells_app by (try apply Hcnt; lia).
    f_equal. apply list_fmap_ext. intros n j Hj%lookup_seqZ.
    by rewrite to_int_small by lia. }
  by rewrite Hloop by lia.
Qed.

Lemma print_index_prints_first_cells_witness :
  print_index (<[0 := 7]> (<[1 := 8]> (<[2 := 9]> ∅)))
              (<[0 := 2]> (<[1 := 0]> (<[2 := 1]> ∅))) 3
  = cells (<[0 := 7]> (<[1 := 8]> (<[2 := 9]> ∅)))
      (foldr Z.add 0 (cells (<[0 := 2]> (<[1 := 0]> (<[2 := 1]> ∅))) 3)).
Proof.
  apply (print_index_prints_first_cells
           (<[0 := 7]> (<[1 := 8]> (<[2 := 9]> ∅)))
           (<[0 := 2]> (<[1 := 0]> (<[2 := 1]> ∅))) 3).
  - lia.
  - intros i Hi.
    assert (i = 0 ∨ i = 1 ∨ i = 2) as [->|[->| ->]] by lia;
      vm_compute; discriminate.
  - vm_compute. discriminate.
Defined.



(** X21: the root allocates [all_indexes] with as many elements as the
    ranks have sent offsets, and the gather of the offsets writes every
    one of these elements and no cell outside them. *)
Theorem all_indexes_filled_exactly (cnt : Z → Z) (fnd : Z → gmap Z Z)
    (p : Z) :
  1 ≤ p → (∀ i, 0 ≤ i < p → 0 ≤ cnt i) →
  foldr Z.add 0 (cnt <$> seqZ 0 p) ≤ INT_MAX →
  let recv_counts := gather_counts cnt p ∅ in
  let displs_for_gather := gather_displs recv_counts p in
  let all_indexes :=
    gatherv_blocks fnd recv_counts displs_for_gather p ∅ in
  total_indexes recv_counts p = foldr Z.add 0 (cnt <$> seqZ 0 p) ∧
  ∀ k, is_Some (all_indexes !! k) ↔ 0 ≤ k < total_indexes recv_counts p.
Proof.
  intros Hp Hcnt Htotal recv_counts displs_for_gather all_indexes.
  change (foldr Z.add 0 (cnt <$> seqZ 0 p)) with (sent_before cnt p) in *.
  assert (∀ j, 0 ≤ j < p → recv_counts !!! j = cnt j) as Hrc
    by (intros; by apply gather_counts_lookup).
  assert (total_indexes recv_counts p = sent_before cnt p) as ->
    by (by apply total_indexes_spec).
  split; [done|]. intros k.
  apply (gatherv_blocks_is_Some p cnt); [done..|].
  intros j Hj. by apply (gather_displs_lookup p cnt).
Qed.

Lemma all_indexes_filled_exactly_witness :
  let cnt := λ i : Z, if i =? 1 then 0 else 2 in
  let fnd := λ i : Z, <[0 := 10 * i]> (<[1 := 10 * i + 1]> (∅ : gmap Z Z)) in
  let recv_counts := gather_counts cnt 3 ∅ in
  let displs_for_gather := gather_displs recv_counts 3 in
  let all_indexes :=
    gatherv_blocks fnd recv_counts displs_for_gather 3 ∅ in
  total_indexes recv_counts 3 = foldr Z.add 0 (cnt <$> seqZ 0 3) ∧
  ∀ k, is_Some (all_indexes !! k) ↔ 0 ≤ k < total_indexes recv_counts 3.
Proof.
  apply (all_indexes_filled_exactly
           (λ i : Z, if i =? 1 then 0 else 2)
           (λ i : Z, <[0 := 10 * i]> (<[1 := 10 * i + 1]> (∅ : gmap Z Z))) 3).
  - lia.
  - intros i Hi. destruct (i =? 1); lia.
  - vm_compute. discriminate.
Defined.

(** ** The run *)



(** ** The command line *)

(** X12: the run is aborted with the usage message when the command
    line does not have a pattern and a file.  In every case either the
    root ends in [usage_error] or in one of the calls of [fatal_error] of
    its block, and the run is aborted with that message; or the root has
    opened the file, has read as many bytes as [lseek] has given for its
    size, has passed the size check and makes the first broadcast, the
    run then being that of [main] on the bytes read. *)
Theorem root_block_aborts_or_reads_file (beyond : Z → byte) (sys : system)
    (garbage : Z → Z) (argv : list (list byte)) (p : Z) :
  1 ≤ p →
  let run := mpirun_argv beyond sys garbage argv p in
  let root := main_argv sys (garbage ROOT) argv p ROOT in
  let fd := sys_open sys (argv !!! 2%nat) in
  let file_size := sys_lseek sys fd 0 SEEK_END in
  (length argv ≠ 3%nat → run = Aborted "<pattern> <file>") ∧
  ((∃ msg,
      root = MPI_Abort msg ∧ run = Aborted msg ∧
      msg ∈ ["<pattern> <file>"; "Unable to open file";
             "Error seeking in file"; SizeError;
             "Memory allocation failed for file buffer";
             "Error reading from file"]%string) ∨
   (∃ file,
      length argv = 3%nat ∧ fd ≠ -1 ∧
      sys_read sys fd (to_size_t file_size) = Some file ∧
      Z.of_nat (length file) = file_size ∧
      (to_size_t (file_size - 1) <? Z.of_nat (length (argv !!! 1%nat)))
        = false ∧
      next_call root = Some Bcast_ints ∧
      run = mpirun beyond garbage (argv !!! 1%nat) file p)).
Proof.
  intros Hp. cbv zeta. unfold mpirun_argv.
  destruct (decide (length argv = 3%nat)) as [Hargc|Hargc].
  - split; [done|].
    destruct argv as [|prog [|pattern [|path [|]]]]; try done.
    change ([prog; pattern; path] !!! 1%nat) with pattern in *.
    change ([prog; pattern; path] !!! 2%nat) with path.
    destruct (root_block_io_cases sys (garbage ROOT) pattern path p)
      as [(errornum & msg & Hroot & Hmsg)|(file & Hopen & Hsize & Hcheck
                                           & Hmalloc & Hseek & Hread)].
    + left. exists msg.
      assert (main_argv sys (garbage ROOT) [prog; pattern; path] p ROOT
              = MPI_Abort msg) as Habort
        by (unfold main_argv; simpl; by rewrite Hroot).
      split; [done|]. split; [|by apply list_elem_of_further].
      by rewrite (run_group_root_aborts beyond p Hp 8%nat _ msg).
    + right. exists file.
      pose proof (main_argv_file sys (garbage ROOT) prog pattern path file p
                    ROOT Hopen Hsize ltac:(by rewrite <- Hsize)
                    Hseek ltac:(by rewrite <- Hsize)) as Hroot.
      split; [done|]. split; [done|]. split; [done|]. split; [done|].
      split; [done|]. split.
      * rewrite Hroot. unfold main, root_block.
        change (ROOT =? ROOT) with true. cbv iota.
        rewrite <- Hsize, Hcheck. reflexivity.
      * unfold mpirun, processes.
        rewrite (run_group_ext beyond p Hp 8%nat _
                   (λ id, main (garbage id) pattern file p id)); [done|].
        intros id _. apply main_argv_file; [done|done| |done|];
          by rewrite <- Hsize.
  - assert (main_argv sys (garbage ROOT) argv p ROOT
            = MPI_Abort "<pattern> <file>") as Habort.
    { unfold main_argv.
      destruct (Z.eqb_spec (Z.of_nat (length argv)) 3); [lia|done]. }
    assert (run_group beyond 8 p (λ id, main_argv sys (garbage id) argv p id)
            = Killed "<pattern> <file>") as Hrun
      by (by rewrite (run_group_root_aborts beyond p Hp 8%nat _
                        "<pattern> <file>")).
    rewrite Hrun. split; [done|].
    left. exists "<pattern> <file>"%string.
    split; [done|]. split; [done|]. apply list_elem_of_here.
Qed.

Lemma root_block_aborts_or_reads_file_witness :
  let sys := system_with_file (bytes "aaaaa.") in
  let argv := [bytes "search"; bytes "aa"; bytes "f"] in
  let run := mpirun_argv (λ _, x00) sys (λ _, 0) argv 2 in
  let root := main_argv sys 0 argv 2 ROOT in
  let fd := sys_open sys (argv !!! 2%nat) in
  let file_size := sys_lseek sys fd 0 SEEK_END in
  (length argv ≠ 3%nat → run = Aborted "<pattern> <file>") ∧
  ((∃ msg,
      root = MPI_Abort msg ∧ run = Aborted msg ∧
      msg ∈ ["<pattern> <file>"; "Unable to open file";
             "Error seeking in file"; SizeError;
             "Memory allocation failed for file buffer";
             "Error reading from file"]%string) ∨
   (∃ file,
      length argv = 3%nat ∧ fd ≠ -1 ∧
      sys_read sys fd (to_size_t file_size) = Some file ∧
      Z.of_nat (length file) = file_size ∧
      (to_size_t (file_size - 1) <? Z.of_nat (length (argv !!! 1%nat)))
        = false ∧
      next_call root = Some Bcast_ints ∧
      run = mpirun (λ _, x00) (λ _, 0) (argv !!! 1%nat) file 2)).
Proof.
  apply (root_block_aborts_or_reads_file (λ _, x00)
           (system_with_file (bytes "aaaaa."))
           (λ _, 0) [bytes "search"; bytes "aa"; bytes "f"] 2).
  lia.
Defined.

(** X13: on a command line with a pattern and a file, when the root's
    [open], [lseek], [malloc] and [read] succeed and [read] delivers the
    whole file, the run is the run of [main] on the content of the file:
    what is proved of [mpirun] holds of the program as it is started. *)
Theorem mpirun_argv_reads_file (beyond : Z → byte) (sys : system)
    (garbage : Z → Z) (prog pattern path file : list byte) (p : Z) :
  1 ≤ p →
  sys_open sys path ≠ -1 →
  sys_lseek sys (sys_open sys path) 0 SEEK_END = Z.of_nat (length file) →
  sys_malloc sys (to_size_t (Z.of_nat (length file))) = true →
  sys_lseek sys (sys_open sys path) 0 SEEK_SET ≠ -1 →
  sys_read sys (sys_open sys path) (to_size_t (Z.of_nat (length file)))
    = Some file →
  mpirun_argv beyond sys garbage [prog; pattern; path] p
  = mpirun beyond garbage pattern file p.
Proof.
  intros Hp Hopen Hsize Hmalloc Hseek Hread.
  unfold mpirun_argv, mpirun, processes.
  rewrite (run_group_ext beyond p Hp 8%nat _
             (λ id, main (garbage id) pattern file p id)); [done|].
  intros id _. by apply main_argv_file.
Qed.

Lemma mpirun_argv_reads_file_witness :
  mpirun_argv (λ _, x00) (system_with_file (bytes "aaaaa.")) (λ _, 0)
              [bytes "search"; bytes "aa"; bytes "f"] 2
  = mpirun (λ _, x00) (λ _, 0) (bytes "aa") (bytes "aaaaa.") 2.
Proof.
  apply (mpirun_argv_reads_file (λ _, x00) (system_with_file (bytes "aaaaa."))
           (λ _, 0) (bytes "search") (bytes "aa") (bytes "f")
           (bytes "aaaaa.") 2).
  - lia.
  - simpl. lia.
  - reflexivity.
  - reflexivity.
  - simpl. lia.
  - reflexivity.
Defined.
